(** * lazy: pull-based asynchronous sequences, their operators and the Producer

    A shallow embedding of [src/index.js] (class [Lazy]), [src/producer.js]
    (class [Producer]) and of the operators of [operators.js] (in its
    revision with [skipWhile] and [skipUntil]) that the properties below are
    about: [range], [fromArray], [take], [tap], [merge], [skipWhile],
    [skipUntil] and [toArray].  The other operators of the file ([empty],
    [map], [filter], [skip], [takeUntil], [takeWhile], [flatMap], [reduce],
    [forEach], [fromEvent], [compose], [curry]) follow in modules of their
    own.

    Generators are embedded as explicit state machines.  A generator object is
    a frame (the local variables of the generator function together with the
    point at which it is suspended); one [step] of the machine runs the body up
    to the next request to its upstream, the next [yield] or its end.  A call
    of [next()] on the object is a run of steps up to the first [Yield] or
    [Return].  Consumers ([for await]) are loops over steps, bounded by fuel.

    Scope of the model.  Numbers are the integers (no fractional parts, no
    infinities apart from the default upper bound of [range]); values passed
    through a sequence are never promises themselves; exceptions raised by
    user callbacks are not modelled.  The promises of the Producer are modelled
    in a store of their own. *)

From Stdlib Require Import ZArith List Bool Lia String.
From stdpp Require Import base option list gmap.
Import ListNotations.

#[local] Open Scope Z_scope.

(* ===================================================================== *)
(** ** JavaScript values *)
(* ===================================================================== *)

Module JS.

(** The primitive values the operators' examples compute with. *)
Inductive jsval : Type :=
| VUndefined
| VNull
| VBool (b : bool)
| VNum (n : Z)
| VNaN.

(** [ToBoolean]: what [if (x)] and [!x] test. *)
Definition truthy (v : jsval) : bool :=
  match v with
  | VUndefined | VNull | VNaN => false
  | VBool b => b
  | VNum n => negb (n =? 0)
  end.

(** [ToNumber] on primitives; [None] stands for NaN. *)
Definition to_number (v : jsval) : option Z :=
  match v with
  | VUndefined | VNaN => None
  | VNull => Some 0
  | VBool b => Some (if b then 1 else 0)
  | VNum n => Some n
  end.

(** [a + b] on the values above (none of them is a string or an object, so
    the addition is numeric). *)
Definition js_add (a b : jsval) : jsval :=
  match to_number a, to_number b with
  | Some x, Some y => VNum (x + y)
  | _, _ => VNaN
  end.

(** [!v] *)
Definition js_not (v : jsval) : jsval := VBool (negb (truthy v)).

(** [a === b]; NaN is not equal to itself. *)
Definition strict_eq (a b : jsval) : bool :=
  match a, b with
  | VUndefined, VUndefined | VNull, VNull => true
  | VBool x, VBool y => Bool.eqb x y
  | VNum x, VNum y => x =? y
  | _, _ => false
  end.

(** Types of values that have JavaScript's [undefined] among them: what the
    [value] field of an iterator result holds once the generator is done. *)
Class Undefined (A : Type) := undefined : A.

#[export] Instance jsval_undefined : Undefined jsval := VUndefined.

End JS.
Export JS.

(* ===================================================================== *)
(** ** Generators and the iteration protocol *)
(* ===================================================================== *)

Module Iter.

(** The object [{ value, done }] that [next()] returns (or promises). *)
Record IteratorResult (A : Type) := mkResult { value : A; done : bool }.
Arguments mkResult {A}.
Arguments value {A}.
Arguments done {A}.

(** [function*] or [async function*]: [next()] of the first returns the
    iterator result itself, [next()] of the second a promise of it. *)
Inductive GeneratorKind := SyncGenerator | AsyncGenerator.

(** What one step of a generator body does: go on internally (for instance
    between two requests to its upstream), [yield v], or finish. *)
Inductive turn (A : Type) :=
| Tau
| Yield (v : A)
| Return.
Arguments Tau {A}.
Arguments Yield {A}.
Arguments Return {A}.

(** A generator function.  Calling it gives a fresh generator object in the
    frame [start]; nothing of the body runs before the first [next()]. *)
Record Generator (A : Type) := mkGenerator {
  kind : GeneratorKind;
  frame : Type;
  start : frame;
  step : frame -> turn A * frame
}.
Arguments mkGenerator {A}.
Arguments kind {A}.
Arguments frame {A}.
Arguments start {A}.
Arguments step {A}.

Section Protocol.
Context {A : Type} `{Undefined A}.

Definition yielded (v : A) : IteratorResult A := mkResult v false.
Definition returned : IteratorResult A := mkResult undefined true.

Variable g : Generator A.

(** One call of [next()]: steps up to the first [yield] or the end. *)
Inductive Next : frame g -> IteratorResult A -> frame g -> Prop :=
| Next_tau f f' r f'' :
    step g f = (Tau, f') -> Next f' r f'' -> Next f r f''
| Next_yield f v f' :
    step g f = (Yield v, f') -> Next f (yielded v) f'
| Next_return f f' :
    step g f = (Return, f') -> Next f returned f'.

(** Successive calls of [next()]. *)
Inductive Nexts : frame g -> list (IteratorResult A) -> frame g -> Prop :=
| Nexts_nil f : Nexts f [] f
| Nexts_cons f r f' rs f'' :
    Next f r f' -> Nexts f' rs f'' -> Nexts f (r :: rs) f''.

(** [Drains f xs f']: iterated to its end from frame [f], the generator
    yields exactly [xs], in this order, and finishes in frame [f']. *)
Inductive Drains : frame g -> list A -> frame g -> Prop :=
| Drains_tau f f' xs f'' :
    step g f = (Tau, f') -> Drains f' xs f'' -> Drains f xs f''
| Drains_yield f v f' xs f'' :
    step g f = (Yield v, f') -> Drains f' xs f'' -> Drains f (v :: xs) f''
| Drains_return f f' :
    step g f = (Return, f') -> Drains f [] f'.

(** [Taus f f']: the machine goes from [f] to [f'] by steps that yield
    nothing. *)
Inductive Taus : frame g -> frame g -> Prop :=
| Taus_refl f : Taus f f
| Taus_step f f' f'' : step g f = (Tau, f') -> Taus f' f'' -> Taus f f''.

(** The loop of [toArray]:
<<
    const list = [];
    for await (let v of iter) { list.push(v); }
    return list;
>>
    [None] when the fuel runs out before the generator finishes. *)
Fixpoint toArray_loop (fuel : nat) (f : frame g) (lst : list A)
  : option (list A * frame g) :=
  match fuel with
  | O => None
  | S fuel' =>
      match step g f with
      | (Tau, f') => toArray_loop fuel' f' lst
      | (Yield v, f') => toArray_loop fuel' f' (lst ++ [v])
      | (Return, f') => Some (lst, f')
      end
  end.

(** The values yielded during the first [fuel] steps, whether or not the
    generator finishes: an observation that also exists for a sequence
    without end. *)
Fixpoint observe (fuel : nat) (f : frame g) : list A :=
  match fuel with
  | O => []
  | S fuel' =>
      match step g f with
      | (Tau, f') => observe fuel' f'
      | (Yield v, f') => v :: observe fuel' f'
      | (Return, _) => []
      end
  end.

End Protocol.

(** [toArray(iter)], with the frame the generator finished in. *)
Definition toArray_run {A} (fuel : nat) (iter : Generator A)
  : option (list A * frame iter) :=
  toArray_loop iter fuel (start iter) [].

Definition toArray {A} (fuel : nat) (iter : Generator A) : option (list A) :=
  fst <$> toArray_run fuel iter.

End Iter.
Export Iter.

(* ===================================================================== *)
(** ** The class Lazy ([src/index.js]) *)
(* ===================================================================== *)

Module LazyClass.

(** What a caller may pass to [new Lazy(...)]: a generator function, or any
    other value ([undefined] when the argument is left out). *)
Inductive argument (A : Type) :=
| NotCallable (v : jsval)
| GeneratorFunction (g : Generator A).
Arguments NotCallable {A}.
Arguments GeneratorFunction {A}.

Inductive exn :=
| Error (message : string)
| TypeError (message : string).

(** An instance: its only field is [this._gen]. *)
Record Lazy (A : Type) := mkLazy { _gen : argument A }.
Arguments mkLazy {A}.
Arguments _gen {A}.

(** [ToBoolean] of the argument; a function is an object, hence truthy. *)
Definition arg_truthy {A} (a : argument A) : bool :=
  match a with
  | NotCallable v => truthy v
  | GeneratorFunction _ => true
  end.

(**
<<
  constructor(generator) {
    if (!generator) {
      throw new Error("You must give Lazy a generator function");
    }
    this._gen = generator;
  }
>> *)
Definition constructor {A} (generator : argument A) : exn + Lazy A :=
  if negb (arg_truthy generator)
  then inl (Error "You must give Lazy a generator function")
  else inr (mkLazy generator).

(** [[Symbol.asyncIterator]() { return this._gen(); }] *)
Definition asyncIterator {A} (this : Lazy A) : exn + Generator A :=
  match _gen this with
  | GeneratorFunction g => inr g
  | NotCallable _ => inl (TypeError "this._gen is not a function")
  end.

End LazyClass.

(* ===================================================================== *)
(** ** Operators ([operators.js])

    Every operator wraps its generator function in [new Lazy(...)]; the
    argument is a function, so the construction succeeds (lemma
    [constructor_generator] below) and iterating the result calls that
    function.  The operators are therefore given as functions from generator
    functions to generator functions. *)
(* ===================================================================== *)

Module Operators.

(** The upper bound of [range]: a number, or the default [Infinity]. *)
Inductive bound := Finite (n : Z) | Infinity.

(** [i <= end] *)
Definition le_bound (i : Z) (e : bound) : bool :=
  match e with
  | Finite n => i <=? n
  | Infinity => true
  end.

(** The generator objects of the operators below are suspended at the head
    of their loop (where the next upstream value is requested), at a
    [yield], or they are completed. *)
Inductive loop_pc := AtHead | AtYield | Completed.

Section Sources.
Context {A : Type}.

(**
<<
const range = (start, end = Infinity, mapper = a => a) =>
  new Lazy(function*() {
    let i = start;
    while (i <= end) {
      yield mapper(i++);
    }
  });
>>
    The frame is [i]. *)
Definition range (start : Z) (end_ : bound) (mapper : Z -> A) : Generator A :=
  mkGenerator SyncGenerator Z start
    (fun i => if le_bound i end_ then (Yield (mapper i), i + 1) else (Return, i)).

(**
<<
const fromArray = arr =>
  new Lazy(function*() {
    for (let v of arr) {
      yield v;
    }
  });
>>
    The frame is the next index of the array iterator. *)
Definition fromArray (arr : list A) : Generator A :=
  mkGenerator SyncGenerator nat 0%nat
    (fun i => match arr !! i with
              | Some v => (Yield v, S i)
              | None => (Return, i)
              end).

End Sources.

Section Take.
Context {A : Type}.
Variable num : Z.
Variable iter : Generator A.

Record take_frame := mkTake {
  take_pc : loop_pc;
  take_iter : frame iter;
  remaining : Z
}.

(**
<<
const take = curry(
  (num, iter) =>
    new Lazy(async function*() {
      let remaining = num;
      for await (let v of iter) {
        if (!remaining) {
          break;
        }

        yield v;
        remaining--;
      }
    })
);
>> *)
Definition take_step (f : take_frame) : turn A * take_frame :=
  match take_pc f with
  | Completed => (Return, f)
  | AtYield =>
      (* resumed after [yield v]: [remaining--], then the loop goes on *)
      (Tau, mkTake AtHead (take_iter f) (remaining f - 1))
  | AtHead =>
      match step iter (take_iter f) with
      | (Tau, u) => (Tau, mkTake AtHead u (remaining f))
      | (Return, u) => (Return, mkTake Completed u (remaining f))
      | (Yield v, u) =>
          if remaining f =? 0
          then (* break *) (Return, mkTake Completed u (remaining f))
          else (Yield v, mkTake AtYield u (remaining f))
      end
  end.

Definition take : Generator A :=
  mkGenerator AsyncGenerator take_frame (mkTake AtHead (start iter) num) take_step.

End Take.
Arguments mkTake {A iter}.
Arguments take_pc {A iter}.
Arguments take_iter {A iter}.
Arguments remaining {A iter}.

Section Tap.
Context {A W : Type}.
(** [fn] is called for its effect: it changes some state [W] that it closes
    over (the list of calls of a mock function, say). *)
Variable fn : A -> W -> W.
Variable iter : Generator A.

Record tap_frame := mkTap {
  tap_pc : loop_pc;
  tap_iter : frame iter;
  tap_world : W
}.

(**
<<
const tap = curry(
  (fn, iter) =>
    new Lazy(async function*() {
      for await (let v of iter) {
        fn(v);
        yield v;
      }
    })
);
>> *)
Definition tap_step (f : tap_frame) : turn A * tap_frame :=
  match tap_pc f with
  | Completed => (Return, f)
  | AtYield => (Tau, mkTap AtHead (tap_iter f) (tap_world f))
  | AtHead =>
      match step iter (tap_iter f) with
      | (Tau, u) => (Tau, mkTap AtHead u (tap_world f))
      | (Return, u) => (Return, mkTap Completed u (tap_world f))
      | (Yield v, u) => (Yield v, mkTap AtYield u (fn v (tap_world f)))
      end
  end.

Definition tap (w0 : W) : Generator A :=
  mkGenerator AsyncGenerator tap_frame (mkTap AtHead (start iter) w0) tap_step.

End Tap.
Arguments mkTap {A W iter}.
Arguments tap_pc {A W iter}.
Arguments tap_iter {A W iter}.
Arguments tap_world {A W iter}.

(** A mock function ([jest.fn()]): it records the arguments of its calls. *)
Definition spy {A} (v : A) (calls : list A) : list A := calls ++ [v].

Section SkipPrefix.
Context {A : Type}.
(** [pred(v)] may be any value; [if] and [!] look at its truthiness. *)
Variable pred : A -> jsval.
Variable iter : Generator A.

(** Besides the head of the loop, the two operators can be suspended at
    their first [yield v], inside [if (hasSkipped)], with [v] in hand. *)
Inductive skip_pc := SkipHead | SkipFirstYield (v : A) | SkipCompleted.

Record skip_frame := mkSkip {
  skip_at : skip_pc;
  skip_iter : frame iter;
  hasSkipped : bool
}.

(**
<<
const skipWhile = curry(
  (pred, iter) =>
    new Lazy(async function* () {
      let hasSkipped = false
      for await (const v of iter) {
        if (hasSkipped) {
          yield v
        }

        if (pred(v)) {
          continue
        }

        hasSkipped = true
        yield v
      }
    })
)
>>
    [skipWhile_rest v] is the body from [if (pred(v))] on. *)
Definition skipWhile_rest (v : A) (u : frame iter) (skipped : bool)
  : turn A * skip_frame :=
  if truthy (pred v)
  then (* continue *) (Tau, mkSkip SkipHead u skipped)
  else (* hasSkipped = true; yield v *) (Yield v, mkSkip SkipHead u true).

Definition skipWhile_step (f : skip_frame) : turn A * skip_frame :=
  match skip_at f with
  | SkipCompleted => (Return, f)
  | SkipFirstYield v => skipWhile_rest v (skip_iter f) (hasSkipped f)
  | SkipHead =>
      match step iter (skip_iter f) with
      | (Tau, u) => (Tau, mkSkip SkipHead u (hasSkipped f))
      | (Return, u) => (Return, mkSkip SkipCompleted u (hasSkipped f))
      | (Yield v, u) =>
          if hasSkipped f
          then (Yield v, mkSkip (SkipFirstYield v) u (hasSkipped f))
          else skipWhile_rest v u (hasSkipped f)
      end
  end.

Definition skipWhile : Generator A :=
  mkGenerator AsyncGenerator skip_frame
    (mkSkip SkipHead (start iter) false) skipWhile_step.

(**
<<
const skipUntil = curry(
  (pred, iter) =>
    new Lazy(async function* () {
      let hasSkipped = false
      for await (const v of iter) {
        if (hasSkipped) {
          yield v
        }

        if (!pred(v)) {
          continue
        }

        hasSkipped = true
        yield v
      }
    })
)
>>
    [skipUntil_rest v] is the body from [if (!pred(v))] on. *)
Definition skipUntil_rest (v : A) (u : frame iter) (skipped : bool)
  : turn A * skip_frame :=
  if negb (truthy (pred v))
  then (* continue *) (Tau, mkSkip SkipHead u skipped)
  else (* hasSkipped = true; yield v *) (Yield v, mkSkip SkipHead u true).

Definition skipUntil_step (f : skip_frame) : turn A * skip_frame :=
  match skip_at f with
  | SkipCompleted => (Return, f)
  | SkipFirstYield v => skipUntil_rest v (skip_iter f) (hasSkipped f)
  | SkipHead =>
      match step iter (skip_iter f) with
      | (Tau, u) => (Tau, mkSkip SkipHead u (hasSkipped f))
      | (Return, u) => (Return, mkSkip SkipCompleted u (hasSkipped f))
      | (Yield v, u) =>
          if hasSkipped f
          then (Yield v, mkSkip (SkipFirstYield v) u (hasSkipped f))
          else skipUntil_rest v u (hasSkipped f)
      end
  end.

Definition skipUntil : Generator A :=
  mkGenerator AsyncGenerator skip_frame
    (mkSkip SkipHead (start iter) false) skipUntil_step.

End SkipPrefix.
Arguments SkipHead {A}.
Arguments SkipFirstYield {A}.
Arguments SkipCompleted {A}.
Arguments mkSkip {A iter}.
Arguments skip_at {A iter}.
Arguments skip_iter {A iter}.
Arguments hasSkipped {A iter}.

Section Merge.
Context {A B C : Type} `{Undefined A} `{Undefined B}.
Variable fn : A -> B -> C.
Variable iterA : Generator A.
Variable iterB : Generator B.

(** What [gen.next()] evaluates to: the iterator result of a [function*],
    a promise of the iterator result of an [async function*]. *)
Inductive node (X : Type) :=
| NodeResult (r : IteratorResult X)
| NodePromise (r : IteratorResult X).
Arguments NodeResult {X}.
Arguments NodePromise {X}.

Definition next_node {X} (k : GeneratorKind) (r : IteratorResult X) : node X :=
  match k with
  | SyncGenerator => NodeResult r
  | AsyncGenerator => NodePromise r
  end.

(** [!node.done]: a promise has no property [done], and [!undefined] is
    [true]. *)
Definition not_done {X} (n : node X) : bool :=
  match n with
  | NodeResult r => negb (done r)
  | NodePromise _ => true
  end.

(** [await node]: the iterator result, awaited or not. *)
Definition await {X} (n : node X) : IteratorResult X :=
  match n with
  | NodeResult r => r
  | NodePromise r => r
  end.

(** The points at which the body of [merge] stands between two steps, each
    with the variables assigned so far. *)
Inductive merge_pc :=
| MergeNextA
| MergeNextB (nodeA : node A)
| MergeWhile (nodeA : node A) (nodeB : node B)
| MergeYield
| MergeCompleted.

Record merge_frame := mkMerge {
  merge_at : merge_pc;
  genA : frame iterA;
  genB : frame iterB
}.

(** The result of one step of [gen.next()] on an upstream, if it has one. *)
Definition result_of {X} `{Undefined X} (t : turn X) : option (IteratorResult X) :=
  match t with
  | Tau => None
  | Yield v => Some (yielded v)
  | Return => Some returned
  end.

(**
<<
const merge = curry(
  (fn, iterA, iterB) =>
    new Lazy(async function*() {
      const genA = iterA[Symbol.asyncIterator]();
      const genB = iterB[Symbol.asyncIterator]();
      let nodeA = genA.next();
      let nodeB = genB.next();

      while (!nodeA.done) {
        const { value: aValue } = await nodeA;
        const { value: bValue } = await nodeB;

        yield fn(aValue, bValue);

        nodeA = genA.next();
        nodeB = genB.next();
      }
    })
);
>> *)
Definition merge_step (f : merge_frame) : turn C * merge_frame :=
  match merge_at f with
  | MergeCompleted => (Return, f)
  | MergeNextA =>
      let (t, a) := step iterA (genA f) in
      match result_of t with
      | None => (Tau, mkMerge MergeNextA a (genB f))
      | Some r => (Tau, mkMerge (MergeNextB (next_node (kind iterA) r)) a (genB f))
      end
  | MergeNextB nodeA =>
      let (t, b) := step iterB (genB f) in
      match result_of t with
      | None => (Tau, mkMerge (MergeNextB nodeA) (genA f) b)
      | Some r =>
          (Tau, mkMerge (MergeWhile nodeA (next_node (kind iterB) r)) (genA f) b)
      end
  | MergeWhile nodeA nodeB =>
      if not_done nodeA
      then
        let aValue := value (await nodeA) in
        let bValue := value (await nodeB) in
        (Yield (fn aValue bValue), mkMerge MergeYield (genA f) (genB f))
      else (Return, mkMerge MergeCompleted (genA f) (genB f))
  | MergeYield => (Tau, mkMerge MergeNextA (genA f) (genB f))
  end.

Definition merge : Generator C :=
  mkGenerator AsyncGenerator merge_frame
    (mkMerge MergeNextA (start iterA) (start iterB)) merge_step.

End Merge.
Arguments NodeResult {X}.
Arguments NodePromise {X}.
Arguments mkMerge {A B iterA iterB}.
Arguments merge_at {A B iterA iterB}.
Arguments genA {A B iterA iterB}.
Arguments genB {A B iterA iterB}.

(** The frames of [merge] in which [nodeA], when assigned, is a promise. *)
Definition merge_at_promise {A B} {iterA : Generator A} {iterB : Generator B}
    (f : merge_frame iterA iterB) : Prop :=
  match merge_at f with
  | MergeNextA | MergeYield => True
  | MergeNextB (NodePromise _) | MergeWhile (NodePromise _) _ => True
  | _ => False
  end.

(** The predicates of the tests of [skipWhile] and [skipUntil] in
    [index.test.js]: [num === 0] and [num !== 0] (as booleans). *)
Definition is_zero (v : jsval) : jsval := VBool (strict_eq v (VNum 0)).
Definition is_not_zero (v : jsval) : jsval := VBool (negb (strict_eq v (VNum 0))).

End Operators.

(* ===================================================================== *)
(** ** Sequences of values: what the skip-prefix operators are meant to
       yield, and what their loops yield *)
(* ===================================================================== *)

Module Sequences.

Section Sequences.
Context {A : Type}.
Variable pred : A -> jsval.

(** The intended behaviour, in the words of the specification: "discard a
    leading run of values satisfying the while condition, then yield
    every value thereafter exactly once, including the one that ended the
    run". *)
Fixpoint skipWhile_intended (xs : list A) : list A :=
  match xs with
  | [] => []
  | v :: rest => if truthy (pred v) then skipWhile_intended rest else v :: rest
  end.

(** The same for the until condition: the leading run is of the values
    for which [pred] does not hold. *)
Fixpoint skipUntil_intended (xs : list A) : list A :=
  match xs with
  | [] => []
  | v :: rest => if truthy (pred v) then v :: rest else skipUntil_intended rest
  end.

(** The values that the loop of [skipWhile] yields for the upstream values
    [xs], entered with the given value of [hasSkipped]: per upstream value,
    the first [yield] when [hasSkipped] is set, then the second unless
    [pred(v)] holds. *)
Fixpoint skipWhile_yields (skipped : bool) (xs : list A) : list A :=
  match xs with
  | [] => []
  | v :: rest =>
      (if skipped then [v] else [])
      ++ (if truthy (pred v)
          then skipWhile_yields skipped rest
          else v :: skipWhile_yields true rest)
  end.

End Sequences.

End Sequences.

(* ===================================================================== *)
(** ** The class Producer ([src/producer.js])

<<
class Producer extends Lazy {
  constructor() {
    let resolve;
    let reject;
    let prom = new Promise((res, rej) => {
      resolve = res;
      reject = rej;
    });
    let iterating = true;

    super(async function*() {
      while (iterating) {
        yield prom;
      }
    });

    this.next = v => {
      resolve(v);
      prom = new Promise((res, rej) => {
        resolve = res;
      });
    };

    this.complete = () => (iterating = false);

    this.error = err => {
      reject(err);
      iterating = false;
    };
  }
}
>>
    The variables [resolve], [reject], [prom] and [iterating] are shared by
    the three methods and by every generator object of the instance.  The
    promises live in a store; [resolve], [reject] and [prom] hold addresses
    of promises in it (the promise that the function [res], [rej] settles). *)
(* ===================================================================== *)

Module Producer.

Section Producer.
(** Type of the values that are emitted, and of the errors. *)
Context {V : Type}.

Inductive promise :=
| Pending
| Fulfilled (v : V)
| Rejected (err : V).

Record producer := mkProducer {
  promises : gmap nat promise;
  fresh : nat;          (* address of the next [new Promise] *)
  resolve : nat;
  reject : nat;
  prom : nat;
  iterating : bool
}.

(** Calling the [res] or [rej] of the promise at address [a]: the promise
    is settled unless it has been settled before. *)
Definition settle (a : nat) (s : promise) (h : gmap nat promise)
  : gmap nat promise :=
  match h !! a with
  | Some Pending => <[a := s]> h
  | _ => h
  end.

(** [new Producer()] *)
Definition new_Producer : producer :=
  mkProducer {[ 0%nat := Pending ]} 1 0 0 0 true.

(** [this.next(v)]: the new promise's executor assigns [resolve] only. *)
Definition next (v : V) (p : producer) : producer :=
  let h := settle (resolve p) (Fulfilled v) (promises p) in
  mkProducer (<[fresh p := Pending]> h) (S (fresh p))
    (fresh p) (reject p) (fresh p) (iterating p).

(** [this.complete()] *)
Definition complete (p : producer) : producer :=
  mkProducer (promises p) (fresh p) (resolve p) (reject p) (prom p) false.

(** [this.error(err)] *)
Definition error (err : V) (p : producer) : producer :=
  let h := settle (reject p) (Rejected err) (promises p) in
  mkProducer h (fresh p) (resolve p) (reject p) (prom p) false.

(** A generator object of [async function*() { while (iterating) { yield
    prom; } }]: not started, inside [yield prom] awaiting the promise that
    [prom] held when the loop came there, suspended after having yielded, or
    completed. *)
Inductive generator :=
| SuspendedStart
| Awaiting (a : nat)
| SuspendedYield
| GenCompleted.

(** How a call of [next()] on the generator object ends for the consumer. *)
Inductive outcome :=
| Value (v : V)
| End
| Thrown (err : V).

(** A producer, one generator object of it and what its consumer has got
    from it so far. *)
Record system := mkSystem {
  prod : producer;
  gen : generator;
  outcomes : list outcome
}.

(** A consumer begins to iterate: [producer[Symbol.asyncIterator]()]. *)
Definition begin (p : producer) : system := mkSystem p SuspendedStart [].

(** What can happen, one at a time (JavaScript runs each to completion):
    a call of one of the three methods, the consumer's call of [next()] on
    its generator object, and the job that resumes the generator once the
    promise it awaits is settled. *)
Inductive event :=
| Emit (v : V)
| Complete
| Fail (err : V)
| Pull
| Settle.

(** The generator runs from its start or from its [yield] to the loop
    test [while (iterating)], and on to [yield prom]. *)
Definition resume (s : system) : system :=
  if iterating (prod s)
  then mkSystem (prod s) (Awaiting (prom (prod s))) (outcomes s)
  else mkSystem (prod s) GenCompleted (outcomes s ++ [End]).

Definition exec (e : event) (s : system) : system :=
  match e with
  | Emit v => mkSystem (next v (prod s)) (gen s) (outcomes s)
  | Complete => mkSystem (complete (prod s)) (gen s) (outcomes s)
  | Fail err => mkSystem (error err (prod s)) (gen s) (outcomes s)
  | Pull =>
      match gen s with
      | SuspendedStart | SuspendedYield => resume s
      | GenCompleted => mkSystem (prod s) GenCompleted (outcomes s ++ [End])
      | Awaiting _ =>
          (* [for await] asks for one value at a time *)
          s
      end
  | Settle =>
      match gen s with
      | Awaiting a =>
          match promises (prod s) !! a with
          | Some (Fulfilled v) =>
              mkSystem (prod s) SuspendedYield (outcomes s ++ [Value v])
          | Some (Rejected err) =>
              mkSystem (prod s) GenCompleted (outcomes s ++ [Thrown err])
          | _ => s
          end
      | _ => s
      end
  end.

Definition run (es : list event) (s : system) : system :=
  fold_left (fun s e => exec e s) es s.

(** Invariants of the model, used in the proofs below. *)

(** The producer is active and [resolve] is the resolving function of the
    promise in [prom], which is pending. *)
Definition armed (p : producer) : Prop :=
  iterating p = true
  /\ resolve p = prom p
  /\ promises p !! prom p = Some Pending
  /\ (prom p < fresh p)%nat.

(** As [armed], after at least one call of [next]: [reject] is still the
    rejecting function of the first promise, which is fulfilled. *)
Definition stale_reject (p : producer) : Prop :=
  armed p
  /\ reject p = 0%nat
  /\ (0 < prom p)%nat
  /\ exists v, promises p !! 0%nat = Some (Fulfilled v).

(** The producer is not iterating, and the generator object has not run
    or is completed; its consumer has only ever been told the end. *)
Definition finished (s : system) : Prop :=
  iterating (prod s) = false
  /\ (gen s = SuspendedStart \/ gen s = GenCompleted)
  /\ Forall (fun o => o = End) (outcomes s).

End Producer.
Arguments promise : clear implicits.
Arguments producer : clear implicits.
Arguments outcome : clear implicits.
Arguments system : clear implicits.
Arguments event : clear implicits.

End Producer.

(* ===================================================================== *)
(** ** The other operators of [operators.js]

    [empty], [map], [filter], [skip], [takeUntil], [takeWhile] and
    [flatMap], the terminal operators [reduce] and [forEach], and the
    helpers [compose] and [curry].  ([delay] and [sleep] wait for a timer and
    [fromPromise] awaits a promise of its caller; they are left out.) *)
(* ===================================================================== *)

Module MoreOperators.
Import Operators.

(**
<<
const empty = () =>
  new Lazy(function*() {
    return;
  });
>> *)
Definition empty {A : Type} : Generator A :=
  mkGenerator SyncGenerator unit tt (fun f => (Return, f)).

Section Each.
Context {A : Type}.
Variable iter : Generator A.

(** The frame of a generator whose body is one [for await] loop over
    [iter], without variables of its own. *)
Record each_frame := mkEach {
  each_pc : loop_pc;
  each_iter : frame iter
}.

(** One turn of [for await (const v of iter) { body }], where the body is
    given by what it does with [v]: the turn it takes and whether the
    generator is then suspended at a [yield], back at the head of the loop
    ([continue], or the end of the body) or completed ([break]). *)
Definition each_step {B : Type} (body : A -> turn B * loop_pc)
    (f : each_frame) : turn B * each_frame :=
  match each_pc f with
  | Completed => (Return, f)
  | AtYield => (Tau, mkEach AtHead (each_iter f))
  | AtHead =>
      match step iter (each_iter f) with
      | (Tau, u) => (Tau, mkEach AtHead u)
      | (Return, u) => (Return, mkEach Completed u)
      | (Yield v, u) => let (t, pc) := body v in (t, mkEach pc u)
      end
  end.

Record skipping_frame := mkSkipping {
  skipping_pc : loop_pc;
  skipping_iter : frame iter;
  remaning : Z
}.

(**
<<
const skip = curry(
  (num, iter) =>
    new Lazy(async function*() {
      let remaning = num;
      for await (let v of iter) {
        if (remaning) {
          remaning--;
          continue;
        }

        yield v;
      }
    })
);
>> *)
Definition skip_step (f : skipping_frame) : turn A * skipping_frame :=
  match skipping_pc f with
  | Completed => (Return, f)
  | AtYield => (Tau, mkSkipping AtHead (skipping_iter f) (remaning f))
  | AtHead =>
      match step iter (skipping_iter f) with
      | (Tau, u) => (Tau, mkSkipping AtHead u (remaning f))
      | (Return, u) => (Return, mkSkipping Completed u (remaning f))
      | (Yield v, u) =>
          if negb (remaning f =? 0)
          then (* remaning--; continue *)
            (Tau, mkSkipping AtHead u (remaning f - 1))
          else (Yield v, mkSkipping AtYield u (remaning f))
      end
  end.

(** Where the body of [flatMap] stands: at the head of its loop, or inside
    [yield* fn(v)], with the generator object of [fn(v)]. *)
Inductive flat_pc {B : Type} (fn : A -> Generator B) :=
| FlatHead
| FlatInner (v : A) (inner : frame (fn v))
| FlatCompleted.

Arguments FlatHead {B fn}.
Arguments FlatInner {B fn}.
Arguments FlatCompleted {B fn}.

Record flat_frame {B : Type} (fn : A -> Generator B) := mkFlat {
  flat_at : flat_pc fn;
  flat_iter : frame iter
}.
Arguments mkFlat {B fn}.
Arguments flat_at {B fn}.
Arguments flat_iter {B fn}.

(**
<<
const flatMap = curry(
  (fn, iter) =>
    new Lazy(async function*() {
      for await (let v of iter) {
        yield* fn(v);
      }
    })
);
>> *)
Definition flatMap_step {B : Type} (fn : A -> Generator B)
    (f : flat_frame fn) : turn B * flat_frame fn :=
  match flat_at f with
  | FlatCompleted => (Return, f)
  | FlatHead =>
      match step iter (flat_iter f) with
      | (Tau, u) => (Tau, mkFlat FlatHead u)
      | (Return, u) => (Return, mkFlat FlatCompleted u)
      | (Yield v, u) => (Tau, mkFlat (FlatInner v (start (fn v))) u)
      end
  | FlatInner v inner =>
      match step (fn v) inner with
      | (Tau, inner') => (Tau, mkFlat (FlatInner v inner') (flat_iter f))
      | (Yield b, inner') => (Yield b, mkFlat (FlatInner v inner') (flat_iter f))
      | (Return, _) => (Tau, mkFlat FlatHead (flat_iter f))
      end
  end.

(**
<<
const reduce = curry(async (fn, start, iter) => {
  let state = start;
  for await (let v of iter) {
    state = fn(state, v);
  }

  return state;
});
>>
    [None] when the fuel runs out before [iter] ends. *)
Fixpoint reduce_loop {S : Type} (fn : S -> A -> S) (fuel : nat)
    (f : frame iter) (state : S) : option S :=
  match fuel with
  | O => None
  | Datatypes.S fuel' =>
      match step iter f with
      | (Tau, f') => reduce_loop fn fuel' f' state
      | (Yield v, f') => reduce_loop fn fuel' f' (fn state v)
      | (Return, _) => Some state
      end
  end.

(**
<<
const forEach = curry(async (fn, iter) => {
  for await (let v of iter) {
    fn(v);
  }
});
>>
    [fn] is called for its effect on a state [W] (see [tap]); the result is
    the state once the promise of [forEach] is fulfilled. *)
Fixpoint forEach_loop {W : Type} (fn : A -> W -> W) (fuel : nat)
    (f : frame iter) (w : W) : option W :=
  match fuel with
  | O => None
  | Datatypes.S fuel' =>
      match step iter f with
      | (Tau, f') => forEach_loop fn fuel' f' w
      | (Yield v, f') => forEach_loop fn fuel' f' (fn v w)
      | (Return, _) => Some w
      end
  end.

End Each.
Arguments mkEach {A iter}.
Arguments each_pc {A iter}.
Arguments each_iter {A iter}.
Arguments mkSkipping {A iter}.
Arguments skipping_pc {A iter}.
Arguments skipping_iter {A iter}.
Arguments remaning {A iter}.
Arguments FlatHead {A B fn}.
Arguments FlatInner {A B fn}.
Arguments FlatCompleted {A B fn}.
Arguments mkFlat {A iter B fn}.
Arguments flat_at {A iter B fn}.
Arguments flat_iter {A iter B fn}.

(**
<<
const map = curry(
  (fn, iter) =>
    new Lazy(async function*() {
      for await (let v of iter) {
        yield fn(v);
      }
    })
);
>> *)
Definition map {A B : Type} (fn : A -> B) (iter : Generator A) : Generator B :=
  mkGenerator AsyncGenerator (each_frame iter) (mkEach AtHead (start iter))
    (each_step iter (fun v => (Yield (fn v), AtYield))).

(**
<<
const filter = curry(
  (pred, iter) =>
    new Lazy(async function*() {
      for await (let v of iter) {
        if (pred(v)) {
          yield v;
        }
      }
    })
);
>> *)
Definition filter {A : Type} (pred : A -> jsval) (iter : Generator A)
  : Generator A :=
  mkGenerator AsyncGenerator (each_frame iter) (mkEach AtHead (start iter))
    (each_step iter (fun v => if truthy (pred v)
                              then (Yield v, AtYield)
                              else (Tau, AtHead))).

(**
<<
const takeUntil = curry(
  (pred, iter) =>
    new Lazy(async function* () {
      for await (const v of iter) {
        if (pred(v)) {
          break;
        }
        yield v
      }
    })
)
>> *)
Definition takeUntil {A : Type} (pred : A -> jsval) (iter : Generator A)
  : Generator A :=
  mkGenerator AsyncGenerator (each_frame iter) (mkEach AtHead (start iter))
    (each_step iter (fun v => if truthy (pred v)
                              then (* break *) (Return, Completed)
                              else (Yield v, AtYield))).

(**
<<
const takeWhile = curry(
  (pred, iter) =>
    new Lazy(async function* () {
      for await (const v of iter) {
        if (!pred(v)) {
          break;
        }
        yield v
      }
    })
)
>> *)
Definition takeWhile {A : Type} (pred : A -> jsval) (iter : Generator A)
  : Generator A :=
  mkGenerator AsyncGenerator (each_frame iter) (mkEach AtHead (start iter))
    (each_step iter (fun v => if negb (truthy (pred v))
                              then (* break *) (Return, Completed)
                              else (Yield v, AtYield))).

(** [skip(num, iter)], with the loop above as its body. *)
Definition skip {A : Type} (num : Z) (iter : Generator A) : Generator A :=
  mkGenerator AsyncGenerator (skipping_frame iter)
    (mkSkipping AtHead (start iter) num) (skip_step iter).


(** [reduce(fn, start, iter)] *)
Definition reduce {A S : Type} (fn : S -> A -> S) (start_ : S)
    (fuel : nat) (iter : Generator A) : option S :=
  reduce_loop iter fn fuel (start iter) start_.

(** [forEach(fn, iter)], with [w0] the state before the call. *)
Definition forEach {A W : Type} (fn : A -> W -> W) (w0 : W)
    (fuel : nat) (iter : Generator A) : option W :=
  forEach_loop iter fn fuel (start iter) w0.

(** The values that a loop [for await (const v of iter) { body }] yields
    over the upstream values [xs]. *)
Fixpoint each_yields {A B : Type} (body : A -> turn B * loop_pc)
    (xs : list A) : list B :=
  match xs with
  | [] => []
  | v :: rest =>
      match body v with
      | (Return, _) | (Tau, Completed) => []
      | (Tau, _) => each_yields body rest
      | (Yield b, Completed) => [b]
      | (Yield b, _) => b :: each_yields body rest
      end
  end.

(** The longest prefix of [xs] on which [p] holds. *)
Fixpoint prefix_while {A : Type} (p : A -> bool) (xs : list A) : list A :=
  match xs with
  | [] => []
  | v :: rest => if p v then v :: prefix_while p rest else []
  end.

(**
<<
const compose = (...methods) => iter =>
  methods.reduceRight((i, method) => method(i), iter);
>> *)
Definition compose {T : Type} (methods : list (T -> T)) (iter : T) : T :=
  fold_right (fun method i => method i) iter methods.

Section Curry.
Context {X R : Type}.

(** A function of [length] declared parameters; it is called with a list of
    arguments. *)
Record jsfunction := mkFunction {
  length_ : nat;
  call : list X -> R
}.

(** What a call of a curried function gives: the result of [fn], or the
    function [(...other) => curry(fn)(...args, ...other)] that holds
    [args]. *)
Inductive curried :=
| Applied (r : R)
| Partial (args : list X).

(**
<<
const curry = fn => (...args) =>
  args.length >= fn.length
    ? fn(...args)
    : (...other) => curry(fn)(...args, ...other);
>> *)
Definition curry (fn : jsfunction) (args : list X) : curried :=
  if (length_ fn <=? length args)%nat
  then Applied (call fn args)
  else Partial args.

(** Calling what a call gave, with [other]; the result of [fn] is taken
    not to be callable. *)
Definition call_again (fn : jsfunction) (c : curried) (other : list X)
  : option curried :=
  match c with
  | Partial args => Some (curry fn (args ++ other))
  | Applied _ => None
  end.

(** [curry(fn)(...args)(...c1)(...c2)...] *)
Fixpoint call_chain (fn : jsfunction) (c : curried) (calls : list (list X))
  : option curried :=
  match calls with
  | [] => Some c
  | other :: rest =>
      match call_again fn c other with
      | Some c' => call_chain fn c' rest
      | None => None
      end
  end.

End Curry.
Arguments jsfunction : clear implicits.
Arguments curried : clear implicits.

End MoreOperators.

(* ===================================================================== *)
(** ** [fromEvent] ([operators.js])

<<
const fromEvent = curry(
  (event, target) =>
    new Lazy(async function*() {
      const producer = new Producer();

      target.on(event, producer.next);

      yield* producer;
    })
);
>>
    A generator object of [fromEvent] has not run yet, or it has made its
    producer and listens: it then is the producer, a generator object of it
    and what the consumer got.  The target is an event emitter with no other
    listener for the event; emitting calls the listener, if there is one. *)
(* ===================================================================== *)

Module FromEvent.
Import Producer.

Section FromEvent.
Context {V : Type}.

Inductive listener_event :=
| TargetEmit (payload : V)   (* [target.emit(event, payload)] *)
| Next                       (* the consumer's call of [next()] *)
| Job.                       (* the job of a settled promise *)

Definition on_event (e : listener_event) (s : option (system V))
  : option (system V) :=
  match e, s with
  | TargetEmit _, None => None
  | TargetEmit payload, Some s => Some (exec (Emit payload) s)
  | Next, None => Some (exec Pull (begin new_Producer))
  | Next, Some s => Some (exec Pull s)
  | Job, None => None
  | Job, Some s => Some (exec Settle s)
  end.

Definition run_events (es : list listener_event) (s : option (system V))
  : option (system V) :=
  fold_left (fun s e => on_event e s) es s.

(** What the consumer has got. *)
Definition received (s : option (system V)) : list (outcome V) :=
  match s with
  | None => []
  | Some s => outcomes s
  end.

(** The invariants of a listening generator object: its producer is
    iterating, the generator is not completed and no promise is rejected. *)
Definition listening (s : system V) : Prop :=
  iterating (prod s) = true
  /\ gen s <> GenCompleted
  /\ (forall a err, promises (prod s) !! a <> Some (Rejected err))
  /\ Forall (fun o => exists v, o = Value v) (outcomes s).

End FromEvent.
Arguments listener_event : clear implicits.

End FromEvent.

(* ===================================================================== *)
(** ** Counting what a consumer of a Producer has been given *)
(* ===================================================================== *)

Module ProducerObservations.
Import Producer.

Section Observations.
Context {V : Type}.

(** The consumer's calls of [next()] among [es]. *)
Definition pulls (es : list (event V)) : nat :=
  length (List.filter (fun e => match e with Pull => true | _ => false end) es).

(** The values and errors among the outcomes. *)
Definition delivered (os : list (outcome V)) : nat :=
  length (List.filter (fun o => match o with End => false | _ => true end) os).

(** What the generator object can still deliver once the producer has
    stopped iterating: the promise it awaits, if it awaits one. *)
Definition in_flight (s : system V) : nat :=
  match gen s with
  | Awaiting _ => 1
  | _ => 0
  end.

(** [resolve] belongs to the promise in [prom], and no other promise is
    pending. *)
Definition single_slot (p : producer V) : Prop :=
  resolve p = prom p
  /\ forall a, promises p !! a = Some Pending -> a = prom p.

End Observations.

End ProducerObservations.

(* ===================================================================== *)
(** * Properties *)
(* ===================================================================== *)

(** ** The iteration protocol *)

Module IterTheory.

Section Loops.
Context {A : Type}.
Variable g : Generator A.

(** More fuel does not change a result. *)
Lemma toArray_loop_mono fuel k f acc r :
  toArray_loop g fuel f acc = Some r ->
  toArray_loop g (fuel + k) f acc = Some r.
Proof.
  revert f acc. induction fuel as [|fuel IH]; intros f acc; simpl; [discriminate|].
  destruct (step g f) as [[|v|] f']; auto.
Qed.

(** A finished loop is a finite run of the machine... *)
Lemma toArray_loop_Drains fuel f acc l f' :
  toArray_loop g fuel f acc = Some (l, f') ->
  exists xs, l = acc ++ xs /\ Drains g f xs f'.
Proof.
  revert f acc. induction fuel as [|fuel IH]; intros f acc; simpl; [discriminate|].
  destruct (step g f) as [[|v|] f1] eqn:E; intros Hl.
  - destruct (IH _ _ Hl) as (xs & -> & HD).
    exists xs. split; [reflexivity|]. eapply Drains_tau; eauto.
  - destruct (IH _ _ Hl) as (xs & -> & HD).
    exists (v :: xs). split; [by rewrite <- app_assoc|].
    eapply Drains_yield; eauto.
  - injection Hl as <- <-. exists []. split; [by rewrite app_nil_r|].
    by apply Drains_return.
Qed.

(** ... and a finite run is found by the loop, given the fuel for it. *)
Lemma Drains_toArray_loop f xs f' :
  Drains g f xs f' ->
  exists fuel, forall k acc,
    toArray_loop g (fuel + k) f acc = Some (acc ++ xs, f').
Proof.
  induction 1 as [f f1 xs f2 E _ [n IH]|f v f1 xs f2 E _ [n IH]|f f1 E].
  - exists (S n). intros k acc. simpl. rewrite E. apply IH.
  - exists (S n). intros k acc. simpl. rewrite E, IH.
    by rewrite <- app_assoc.
  - exists 1%nat. intros k acc. simpl. rewrite E. by rewrite app_nil_r.
Qed.

(** The run of a generator to its end is unique. *)
Lemma Drains_deterministic f xs f1 ys f2 :
  Drains g f xs f1 -> Drains g f ys f2 -> xs = ys /\ f1 = f2.
Proof.
  intros HD. revert ys f2.
  induction HD as [f f' xs f'' E _ IH|f v f' xs f'' E _ IH|f f' E];
    intros ys f2 HD2; inversion HD2; subst; try congruence.
  - apply IH. congruence.
  - assert (v0 = v /\ f'0 = f') as [-> ->] by (split; congruence).
    destruct (IH _ _ H0) as [-> ->]. done.
  - split; congruence.
Qed.

(** Steps that yield nothing can be put in front of a run. *)
Lemma Taus_Drains f f' xs f'' :
  Taus g f f' -> Drains g f' xs f'' -> Drains g f xs f''.
Proof. induction 1; intros; [done|]. eapply Drains_tau; eauto. Qed.

Lemma Taus_trans f f' f'' : Taus g f f' -> Taus g f' f'' -> Taus g f f''.
Proof. induction 1; intros; [done|]. eapply Taus_step; eauto. Qed.

End Loops.

Lemma toArray_run_Drains {A} (iter : Generator A) fuel xs f' :
  toArray_run fuel iter = Some (xs, f') -> Drains iter (start iter) xs f'.
Proof.
  unfold toArray_run. intros Hl.
  destruct (toArray_loop_Drains _ _ _ _ _ _ Hl) as (ys & -> & HD). done.
Qed.

Lemma Drains_toArray_run {A} (iter : Generator A) xs f' :
  Drains iter (start iter) xs f' ->
  exists fuel, forall k, toArray_run (fuel + k) iter = Some (xs, f').
Proof.
  intros HD. destruct (Drains_toArray_loop _ _ _ _ HD) as [n Hn].
  exists n. intros k. unfold toArray_run. by rewrite Hn.
Qed.

Lemma toArray_Some_run {A} (iter : Generator A) fuel xs :
  toArray fuel iter = Some xs ->
  exists f', toArray_run fuel iter = Some (xs, f').
Proof.
  unfold toArray. destruct (toArray_run fuel iter) as [[l f']|]; [|done].
  simpl. intros [= ->]. by exists f'.
Qed.

(** Whatever the fuel, [toArray] has one possible result. *)
Lemma toArray_functional {A} (iter : Generator A) n m xs ys :
  toArray n iter = Some xs -> toArray m iter = Some ys -> xs = ys.
Proof.
  intros Hn Hm.
  destruct (toArray_Some_run _ _ _ Hn) as [f1 H1].
  destruct (toArray_Some_run _ _ _ Hm) as [f2 H2].
  apply toArray_run_Drains in H1, H2.
  by destruct (Drains_deterministic _ _ _ _ _ _ H1 H2).
Qed.

End IterTheory.

(** ** The class Lazy *)

Module LazyTheory.
Import LazyClass.

(** Every operator calls [new Lazy] with a generator function: the
    construction succeeds and iterating the instance calls the function. *)
Lemma constructor_generator {A} (g : Generator A) :
  constructor (GeneratorFunction g) = inr (mkLazy (GeneratorFunction g))
  /\ asyncIterator (mkLazy (GeneratorFunction g)) = inr g.
Proof. split; reflexivity. Qed.

(** C8. [new Lazy()] without an argument throws the error "You must give
    Lazy a generator function"; so does every falsy argument, and only
    those: the one test of the constructor is the truthiness of its
    argument.  With a generator function it succeeds and stores the function
    in [_gen]; any other truthy argument (the number 42, say) is stored in
    the same way, without a check that it can be called. *)
Theorem constructor_checks_presence_only {A} :
  constructor (A := A) (NotCallable VUndefined)
    = inl (Error "You must give Lazy a generator function")
  /\ (forall g : Generator A,
        constructor (GeneratorFunction g) = inr (mkLazy (GeneratorFunction g)))
  /\ (forall generator : argument A,
        match constructor generator with
        | inl e =>
            arg_truthy generator = false
            /\ e = Error "You must give Lazy a generator function"
        | inr this => arg_truthy generator = true /\ _gen this = generator
        end)
  /\ constructor (A := A) (NotCallable (VNum 42))
       = inr (mkLazy (NotCallable (VNum 42))).
Proof.
  repeat split; try reflexivity.
  intros generator. unfold constructor.
  destruct (arg_truthy generator); simpl; split; reflexivity.
Qed.

End LazyTheory.

(** ** The operators *)

Module OperatorsTheory.
Import IterTheory Operators.

(** One step of a machine, computed. *)
Ltac machine_unfold :=
  repeat progress
    (simpl; unfold take_step, tap_step, skipWhile_step, skipUntil_step,
       skipWhile_rest, skipUntil_rest, merge_step).

Ltac machine_step E :=
  machine_unfold; rewrite ?E; simpl; reflexivity.

Section FromArray.
Context {A : Type}.

(** From index [length pre] on, the generator of [fromArray (pre ++ xs)]
    yields [xs]. *)
Lemma fromArray_loop (pre xs : list A) (k : nat) (acc : list A) :
  toArray_loop (fromArray (pre ++ xs)) (S (length xs) + k) (length pre) acc
  = Some (acc ++ xs, length (pre ++ xs)).
Proof.
  revert pre acc. induction xs as [|x xs IH]; intros pre acc.
  - cbn [toArray_loop length Nat.add]. simpl step.
    rewrite lookup_ge_None_2 by (rewrite app_nil_r; lia).
    by rewrite !app_nil_r.
  - cbn [toArray_loop length Nat.add]. simpl step.
    rewrite list_lookup_middle by reflexivity.
    specialize (IH (pre ++ [x]) (acc ++ [x])).
    rewrite <- !app_assoc, length_app in IH. simpl in IH.
    replace (length pre + 1)%nat with (S (length pre)) in IH by lia.
    exact IH.
Qed.

Lemma fromArray_Drains (xs : list A) :
  Drains (fromArray xs) (start (fromArray xs)) xs (length xs).
Proof.
  pose proof (fromArray_loop [] xs 0 []) as Hl.
  destruct (toArray_loop_Drains _ _ _ _ _ _ Hl) as (ys & Heq & HD).
  simpl in Heq. by subst ys.
Qed.

(** C7. For every list [xs], [toArray(fromArray(xs))] resolves to [xs]:
    the same elements in the same order.  The loop of [toArray] needs one
    step per element and one more to see the end; any fuel from
    [length xs + 1] on gives the result. *)
Theorem toArray_fromArray (xs : list A) (k : nat) :
  toArray (S (length xs) + k) (fromArray xs) = Some xs.
Proof.
  unfold toArray, toArray_run.
  change (start (fromArray xs)) with (length (@nil A)).
  change (fromArray xs) with (fromArray ([] ++ xs)).
  by rewrite fromArray_loop.
Qed.

End FromArray.

Section TakeFacts.
Context {A : Type}.
Variable iter : Generator A.

(** With a negative count the guard [if (!remaining)] never fires: the
    count only goes down. *)
Lemma take_negative_Drains (num : Z) u xs u' :
  Drains iter u xs u' ->
  forall r, r < 0 ->
  Drains (take num iter) (mkTake AtHead u r) xs
    (mkTake Completed u' (r - Z.of_nat (length xs))).
Proof.
  induction 1 as [u u1 xs u2 E _ IH|u v u1 xs u2 E _ IH|u u1 E]; intros r Hr.
  - eapply Drains_tau; [machine_step E|]. by apply IH.
  - assert ((r =? 0) = false) as E0 by lia.
    eapply Drains_yield; [machine_unfold; rewrite E; simpl; rewrite E0; reflexivity|].
    eapply Drains_tau; [machine_step E|].
    replace (r - Z.of_nat (length (v :: xs)))
      with (r - 1 - Z.of_nat (length xs)) by (simpl length; lia).
    apply IH. lia.
  - replace (r - Z.of_nat (length (@nil A))) with r by (simpl; lia).
    apply Drains_return. machine_step E.
Qed.

(** With a count [r >= 0], [take] yields the first [r] upstream values. *)
Lemma take_Drains (num : Z) u xs u' :
  Drains iter u xs u' ->
  forall r, 0 <= r ->
  exists f', Drains (take num iter) (mkTake AtHead u r)
               (firstn (Z.to_nat r) xs) f'.
Proof.
  induction 1 as [u u1 xs u2 E _ IH|u v u1 xs u2 E _ IH|u u1 E]; intros r Hr.
  - destruct (IH r Hr) as [f' HD]. exists f'.
    eapply Drains_tau; [machine_step E|]. exact HD.
  - destruct (Z.eqb_spec r 0) as [->|Hne].
    + eexists. simpl. apply Drains_return.
      machine_step E.
    + destruct (IH (r - 1)) as [f' HD]; [lia|]. exists f'.
      replace (Z.to_nat r) with (S (Z.to_nat (r - 1))) by lia. simpl firstn.
      assert ((r =? 0) = false) as E0 by lia.
      eapply Drains_yield;
        [machine_unfold; rewrite E; simpl; rewrite E0; reflexivity|].
      eapply Drains_tau; [machine_step E|]. exact HD.
  - eexists. rewrite firstn_nil. apply Drains_return. machine_step E.
Qed.

(** What [take] requests from its upstream, seen by a [tap] with a mock
    function in between: with a count [r >= 0] it yields the first [r]
    values and has been given the first [r + 1] (when there are that many).
    The guard is tested only after the next value has been fetched. *)
Lemma take_tap_Drains (num : Z) u xs u' :
  Drains iter u xs u' ->
  forall r calls, 0 <= r ->
  exists f',
    Drains (take num (tap spy iter []))
      (@mkTake A (tap spy iter []) AtHead (mkTap AtHead u calls) r)
      (firstn (Z.to_nat r) xs) f'
    /\ tap_world (take_iter f') = calls ++ firstn (S (Z.to_nat r)) xs.
Proof.
  induction 1 as [u u1 xs u2 E _ IH|u v u1 xs u2 E _ IH|u u1 E];
    intros r calls Hr.
  - destruct (IH r calls Hr) as (f' & HD & Hw). exists f'. split; [|exact Hw].
    eapply Drains_tau; [machine_step E|]. exact HD.
  - destruct (Z.eqb_spec r 0) as [->|Hne].
    + eexists. split.
      * simpl. apply Drains_return.
        machine_step E.
      * simpl. by rewrite firstn_O.
    + destruct (IH (r - 1) (spy v calls)) as (f' & HD & Hw); [lia|].
      exists f'. replace (Z.to_nat r) with (S (Z.to_nat (r - 1))) by lia.
      assert ((r =? 0) = false) as E0 by lia.
      split.
      * simpl firstn.
        eapply Drains_yield;
          [machine_unfold; rewrite E; simpl; rewrite E0; reflexivity|].
        eapply Drains_tau; [machine_step E|].
        eapply Drains_tau; [machine_step E|]. exact HD.
      * rewrite Hw. unfold spy. by rewrite <- app_assoc.
  - eexists. split.
    + rewrite firstn_nil. apply Drains_return. machine_step E.
    + simpl. by rewrite app_nil_r.
Qed.

End TakeFacts.

(** For a negative count, every finite observation of the upstream is one
    of [take]: also when the upstream has no end. *)
Lemma take_negative_observe {A} (n : Z) (iter : Generator A) (fuel : nat) :
  forall (u : frame iter) r, r < 0 ->
  exists fuel',
    observe (take n iter) fuel' (mkTake AtHead u r) = observe iter fuel u.
Proof.
  induction fuel as [|fuel IH]; intros u r Hr; [by exists 0%nat|].
  simpl observe at 2.
  destruct (step iter u) as [[|v|] u1] eqn:E.
  - destruct (IH u1 r Hr) as [fuel' Hf]. exists (S fuel').
    simpl. unfold take_step. simpl. rewrite E. exact Hf.
  - destruct (IH u1 (r - 1)) as [fuel' Hf]; [lia|]. exists (S (S fuel')).
    assert ((r =? 0) = false) as E0 by lia.
    simpl. unfold take_step. simpl. rewrite E, E0. simpl. by rewrite Hf.
  - exists 1%nat. simpl. unfold take_step. simpl. by rewrite E.
Qed.

(** C9. For a negative count [n] and an upstream that yields [xs] and
    ends, [take(n)] yields all of [xs], in order, and ends: the guard on the
    remaining count is never triggered ([remaining] only moves away from
    zero), and the upstream is iterated to its own end [u]. *)
Theorem take_negative_is_identity {A} (n : Z) (iter : Generator A)
    (fuel : nat) (xs : list A) (u : frame iter) :
  n < 0 ->
  toArray_run fuel iter = Some (xs, u) ->
  exists fuel', forall k,
    toArray (fuel' + k) (take n iter) = Some xs
    /\ toArray_run (fuel' + k) (take n iter)
       = Some (xs, mkTake Completed u (n - Z.of_nat (length xs))).
Proof.
  intros Hn Hrun. apply toArray_run_Drains in Hrun.
  pose proof (take_negative_Drains iter n _ _ _ Hrun n Hn) as HD.
  destruct (Drains_toArray_run (take n iter) _ _ HD) as [fuel' Hf].
  exists fuel'. intros k. unfold toArray. rewrite Hf. done.
Qed.

Lemma take_negative_is_identity_witness :
  exists fuel', forall k,
    toArray (fuel' + k) (take (-1) (fromArray [VNum 1; VNum 2; VNum 3]))
      = Some [VNum 1; VNum 2; VNum 3]
    /\ toArray_run (fuel' + k) (take (-1) (fromArray [VNum 1; VNum 2; VNum 3]))
       = Some ([VNum 1; VNum 2; VNum 3],
               @mkTake _ (fromArray [VNum 1; VNum 2; VNum 3]) Completed 3%nat (-4)).
Proof.
  apply (take_negative_is_identity (-1) (fromArray [VNum 1; VNum 2; VNum 3])
           4 [VNum 1; VNum 2; VNum 3] 3%nat); [lia | reflexivity].
Defined.

(** C3. [take(2)] on [tap(spy)] over the four values 1, 2, 3, 4 yields
    [1, 2] (two values, the minimum of 2 and 4), but by then the mock
    function has been called with 1, 2 and 3: three values were taken from
    the upstream, one more than was yielded.  And [take(0)] still takes one
    value from its upstream before it stops. *)
Theorem take_pulls_one_more_than_it_yields :
  let upstream := tap spy (fromArray [VNum 1; VNum 2; VNum 3; VNum 4]) [] in
  (exists f,
      toArray_run 20 (take 2 upstream) = Some ([VNum 1; VNum 2], f)
      /\ tap_world (take_iter f) = [VNum 1; VNum 2; VNum 3])
  /\ (exists f,
      toArray_run 20 (take 0 upstream) = Some ([], f)
      /\ tap_world (take_iter f) = [VNum 1]).
Proof. split; eexists; split; reflexivity. Qed.

Section SkipFacts.
Context {A : Type}.
Variable pred : A -> jsval.
Variable iter : Generator A.

(** The two generator bodies take the same steps once the predicate of
    [skipWhile] is the negation of that of [skipUntil]. *)
Lemma skipUntil_step_skipWhile (f : skip_frame iter) :
  skipUntil_step pred iter f
  = skipWhile_step (fun v => js_not (pred v)) iter f.
Proof.
  unfold skipUntil_step, skipWhile_step, skipUntil_rest, skipWhile_rest.
  destruct (skip_at f) as [|v|]; [|reflexivity..].
  destruct (step iter (skip_iter f)) as [[|v|] u]; reflexivity.
Qed.

Lemma skipUntil_loop_skipWhile fuel (f : skip_frame iter) acc :
  toArray_loop (skipUntil pred iter) fuel f acc
  = toArray_loop (skipWhile (fun v => js_not (pred v)) iter) fuel f acc.
Proof.
  revert f acc. induction fuel as [|fuel IH]; intros f acc; [reflexivity|].
  simpl. rewrite skipUntil_step_skipWhile.
  destruct (skipWhile_step _ iter f) as [[|v|] f']; auto.
Qed.

Lemma skipUntil_observe_skipWhile fuel (f : skip_frame iter) :
  observe (skipUntil pred iter) fuel f
  = observe (skipWhile (fun v => js_not (pred v)) iter) fuel f.
Proof.
  revert f. induction fuel as [|fuel IH]; intros f; [reflexivity|].
  simpl. rewrite skipUntil_step_skipWhile.
  destruct (skipWhile_step _ iter f) as [[|v|] f']; [auto|by rewrite IH|auto].
Qed.

(** What the loop of [skipWhile] yields over an upstream that yields [xs]. *)
Lemma skipWhile_Drains u xs u' :
  Drains iter u xs u' ->
  forall skipped,
  exists f',
    Drains (skipWhile pred iter) (mkSkip SkipHead u skipped)
      (Sequences.skipWhile_yields pred skipped xs) f'.
Proof.
  induction 1 as [u u1 xs u2 E _ IH|u v u1 xs u2 E _ IH|u u1 E]; intros skipped.
  - destruct (IH skipped) as [f' HD]. exists f'.
    eapply Drains_tau; [machine_step E|]. exact HD.
  - simpl Sequences.skipWhile_yields.
    destruct skipped; destruct (truthy (pred v)) eqn:Ep; simpl app.
    + destruct (IH true) as [f' HD]. exists f'.
      eapply Drains_yield; [machine_step E|].
      eapply Drains_tau; [machine_unfold; rewrite Ep; reflexivity|]. exact HD.
    + destruct (IH true) as [f' HD]. exists f'.
      eapply Drains_yield; [machine_step E|].
      eapply Drains_yield; [machine_unfold; rewrite Ep; reflexivity|]. exact HD.
    + destruct (IH false) as [f' HD]. exists f'.
      eapply Drains_tau; [machine_unfold; rewrite E; simpl; rewrite Ep; reflexivity|].
      exact HD.
    + destruct (IH true) as [f' HD]. exists f'.
      eapply Drains_yield;
        [machine_unfold; rewrite E; simpl; rewrite Ep; reflexivity|].
      exact HD.
  - eexists. apply Drains_return. machine_step E.
Qed.

End SkipFacts.

(** C1. On the upstream 0, 1, 2 with the predicate [num === 0],
    [skipWhile] is meant to yield 1, 2 (the leading 0 discarded, every
    later value once); the generator yields 1, 2, 2.  Once [hasSkipped] is
    set, a value for which the predicate fails goes through both [yield v]
    of the loop body.  [skipUntil] with [num !== 0] does the same. *)
Theorem skip_prefix_yields_twice :
  let upstream := fromArray [VNum 0; VNum 1; VNum 2] in
  Sequences.skipWhile_intended is_zero [VNum 0; VNum 1; VNum 2]
    = [VNum 1; VNum 2]
  /\ toArray 20 (skipWhile is_zero upstream) = Some [VNum 1; VNum 2; VNum 2]
  /\ Sequences.skipUntil_intended is_not_zero [VNum 0; VNum 1; VNum 2]
    = [VNum 1; VNum 2]
  /\ toArray 20 (skipUntil is_not_zero upstream)
    = Some [VNum 1; VNum 2; VNum 2].
Proof. repeat split; reflexivity. Qed.

(** C10. For every predicate and every upstream, [skipUntil(pred)] and
    [skipWhile(v => !pred(v))] yield the same values in the same order:
    [toArray] gives the same result on both, whatever the fuel, and so does
    the observation of their first steps (which also exists when the
    upstream has no end). *)
Theorem skipUntil_is_skipWhile_of_negation {A} (pred : A -> jsval)
    (iter : Generator A) (fuel : nat) :
  toArray fuel (skipUntil pred iter)
    = toArray fuel (skipWhile (fun v => js_not (pred v)) iter)
  /\ observe (skipUntil pred iter) fuel (start (skipUntil pred iter))
    = observe (skipWhile (fun v => js_not (pred v)) iter) fuel
        (start (skipWhile (fun v => js_not (pred v)) iter)).
Proof.
  split.
  - unfold toArray, toArray_run. simpl start.
    by rewrite skipUntil_loop_skipWhile.
  - simpl start. apply skipUntil_observe_skipWhile.
Qed.

Section MergeFacts.
Context {A B C : Type} `{Undefined A} `{Undefined B}.
Variable fn : A -> B -> C.
Variable iterA : Generator A.
Variable iterB : Generator B.

#[local] Abbreviation merged := (merge fn iterA iterB).

Lemma value_await_next_node {X} (k : GeneratorKind) (r : IteratorResult X) :
  value (await (next_node k r)) = value r.
Proof. by destruct k. Qed.

(** [nodeB = genB.next()]: the steps of [iterB] up to its result. *)
Lemma merge_next_B nodeA a b r b' :
  Next iterB b r b' ->
  Taus merged (mkMerge (MergeNextB nodeA) a b)
    (mkMerge (MergeWhile nodeA (next_node (kind iterB) r)) a b').
Proof.
  induction 1 as [b b1 r b2 E _ IH|b v b1 E|b b1 E].
  - eapply Taus_step; [machine_step E|]. exact IH.
  - eapply Taus_step; [machine_step E|]. apply Taus_refl.
  - eapply Taus_step; [machine_step E|]. apply Taus_refl.
Qed.

(** With [iterA] a [function*], the loop of [merge] runs once per value
    of A, pairing it with the value of the result that B gave for the same
    call of [next()], and ends when A does; B has then been asked once more
    than A has yielded. *)
Lemma merge_sync_Drains a xs a' :
  kind iterA = SyncGenerator ->
  Drains iterA a xs a' ->
  forall b rs b',
    Nexts iterB b rs b' ->
    length rs = S (length xs) ->
    Drains merged (mkMerge MergeNextA a b)
      (zip_with fn xs (value <$> rs))
      (mkMerge MergeCompleted a' b').
Proof.
  intros HkA.
  induction 1 as [a a1 xs a2 E _ IH|a v a1 xs a2 E _ IH|a a1 E];
    intros b rs b' HB Hlen.
  - eapply Drains_tau; [machine_step E|]. by apply IH.
  - inversion HB as [|? r b1 rs' ? HN HB']; subst; [discriminate|].
    eapply Drains_tau; [machine_step E|].
    eapply Taus_Drains; [apply merge_next_B; exact HN|].
    rewrite HkA. simpl next_node at 1.
    eapply Drains_yield;
      [machine_unfold; rewrite value_await_next_node; reflexivity|].
    eapply Drains_tau; [machine_unfold; reflexivity|].
    apply IH; [exact HB'|]. simpl in Hlen. lia.
  - inversion HB as [|? r b1 rs' ? HN HB']; subst; [discriminate|].
    destruct rs'; [|discriminate]. inversion HB'; subst.
    eapply Drains_tau; [machine_step E|].
    eapply Taus_Drains; [apply merge_next_B; exact HN|].
    rewrite HkA. apply Drains_return. machine_unfold. reflexivity.
Qed.

(** With [iterA] an [async function*], [nodeA] is a promise, [nodeA.done]
    is [undefined] and the loop of [merge] has no exit: iterating it never
    comes to an end. *)
Lemma merge_async_never_completes :
  kind iterA = AsyncGenerator ->
  forall fuel f acc,
    merge_at_promise f -> toArray_loop merged fuel f acc = None.
Proof.
  intros HkA. induction fuel as [|fuel IH]; intros f acc Hf; [reflexivity|].
  simpl. unfold merge_step, merge_at_promise in *.
  destruct (merge_at f) as [|nodeA|nodeA nodeB| |].
  - destruct (step iterA (genA f)) as [t a].
    destruct (result_of t); apply IH; unfold merge_at_promise; simpl; [|done].
    by rewrite HkA.
  - destruct nodeA; [done|].
    destruct (step iterB (genB f)) as [t b].
    destruct (result_of t); by apply IH.
  - destruct nodeA; [done|]. simpl. by apply IH.
  - by apply IH.
  - done.
Qed.

End MergeFacts.

(** C2, as the code has it.  Let [iterA] be a [function*] (as [range],
    [fromArray] and [empty] are) that yields [xs] and ends, and let [rs] be
    the results of the first [length xs + 1] calls of [next()] on [iterB].
    Then [merge(fn, iterA, iterB)] calls both in lockstep, yields
    [fn(aValue, bValue)] for the values of the results of the same rank (a
    result of B after its end has the value [undefined]), and stops when A
    is exhausted, after [length xs] values.  B has then been asked once more
    than A has yielded. *)
Theorem merge_lockstep_until_A_ends {A B C} `{Undefined A} `{Undefined B}
    (fn : A -> B -> C) (iterA : Generator A) (iterB : Generator B)
    (xs : list A) (a' : frame iterA)
    (rs : list (IteratorResult B)) (b' : frame iterB) :
  kind iterA = SyncGenerator ->
  Drains iterA (start iterA) xs a' ->
  Nexts iterB (start iterB) rs b' ->
  length rs = S (length xs) ->
  exists fuel, forall k,
    toArray (fuel + k) (merge fn iterA iterB)
      = Some (zip_with fn xs (value <$> rs))
    /\ toArray_run (fuel + k) (merge fn iterA iterB)
      = Some (zip_with fn xs (value <$> rs), mkMerge MergeCompleted a' b').
Proof.
  intros HkA HA HB Hlen.
  pose proof (merge_sync_Drains fn iterA iterB _ _ _ HkA HA _ _ _ HB Hlen) as HD.
  destruct (Drains_toArray_run (merge fn iterA iterB) _ _ HD) as [fuel Hf].
  exists fuel. intros k. unfold toArray. by rewrite Hf.
Qed.

Lemma merge_lockstep_until_A_ends_witness :
  exists fuel, forall k,
    toArray (fuel + k)
        (merge js_add (range 1 (Finite 3) VNum) (range 1 (Finite 2) VNum))
      = Some [VNum 2; VNum 4; VNaN]
    /\ toArray_run (fuel + k)
        (merge js_add (range 1 (Finite 3) VNum) (range 1 (Finite 2) VNum))
      = Some ([VNum 2; VNum 4; VNaN],
              @mkMerge _ _ (range 1 (Finite 3) VNum) (range 1 (Finite 2) VNum)
                MergeCompleted 4 3).
Proof.
  refine (merge_lockstep_until_A_ends js_add
            (range 1 (Finite 3) VNum) (range 1 (Finite 2) VNum)
            [VNum 1; VNum 2; VNum 3] 4
            [yielded (VNum 1); yielded (VNum 2); returned; returned] 3
            _ _ _ _).
  - reflexivity.
  - apply Drains_yield with (f' := 2); [reflexivity|].
    apply Drains_yield with (f' := 3); [reflexivity|].
    apply Drains_yield with (f' := 4); [reflexivity|].
    apply Drains_return. reflexivity.
  - apply Nexts_cons with (f' := 2); [apply Next_yield; reflexivity|].
    apply Nexts_cons with (f' := 3); [apply Next_yield; reflexivity|].
    apply Nexts_cons with (f' := 3); [apply Next_return; reflexivity|].
    apply Nexts_cons with (f' := 3); [apply Next_return; reflexivity|].
    apply Nexts_nil.
  - reflexivity.
Defined.

(** The two tests of [merge] in [index.test.js]: B as long as A, and B
    without end. *)
Example merge_test_same_length :
  toArray 20 (merge js_add (range 1 (Finite 2) VNum) (range 1 (Finite 2) VNum))
  = Some [VNum 2; VNum 4].
Proof. reflexivity. Qed.

Example merge_test_stops_with_A :
  toArray 20 (merge js_add (range 1 (Finite 2) VNum) (range 1 Infinity VNum))
  = Some [VNum 2; VNum 4].
Proof. reflexivity. Qed.

(** C2, as stated, fails on its own example:
    [merge((a, b) => a + b, range(1, 3), range(1, 2))] yields 2, 4 and then
    [3 + undefined], which is NaN; no run of it gives [2, 4]. *)
Lemma merge_range_1_3_range_1_2_yields_NaN :
  toArray 20 (merge js_add (range 1 (Finite 3) VNum) (range 1 (Finite 2) VNum))
    = Some [VNum 2; VNum 4; VNaN]
  /\ ~ (exists fuel,
          toArray fuel
            (merge js_add (range 1 (Finite 3) VNum) (range 1 (Finite 2) VNum))
          = Some [VNum 2; VNum 4]).
Proof.
  split; [reflexivity|]. intros [fuel Hf].
  assert (toArray 20
            (merge js_add (range 1 (Finite 3) VNum) (range 1 (Finite 2) VNum))
          = Some [VNum 2; VNum 4; VNaN]) as H20 by reflexivity.
  pose proof (toArray_functional _ _ _ _ _ Hf H20) as Heq. discriminate Heq.
Qed.

(** Over an [async function*] as first sequence ([take(2, range(1))], say)
    [merge] does not stop when A is exhausted: it never stops. *)
Lemma merge_over_async_A_never_ends {A B C} `{Undefined A} `{Undefined B}
    (fn : A -> B -> C) (iterA : Generator A) (iterB : Generator B) (fuel : nat) :
  kind iterA = AsyncGenerator ->
  toArray fuel (merge fn iterA iterB) = None.
Proof.
  intros HkA. unfold toArray, toArray_run.
  rewrite (merge_async_never_completes fn iterA iterB HkA); [reflexivity|].
  exact I.
Qed.

End OperatorsTheory.

(** ** The Producer *)

Module ProducerTheory.
Import Producer.

Section ProducerFacts.
Context {V : Type}.
Implicit Types (p : producer V) (s : system V) (v err : V).

Lemma run_app (es1 es2 : list (event V)) s :
  run (es1 ++ es2) s = run es2 (run es1 s).
Proof. apply fold_left_app. Qed.

(** While the awaited promise is pending, nothing resumes the generator. *)
Lemma settle_pending s a :
  gen s = Awaiting a ->
  promises (prod s) !! a = Some Pending ->
  forall n, run (repeat Settle n) s = s.
Proof.
  intros Hg Hp. induction n as [|n IH]; [reflexivity|].
  simpl. rewrite Hg, Hp. exact IH.
Qed.

(** [next] keeps the producer armed; the promise that was pending is
    fulfilled with the value, and a new pending one is in [prom]. *)
Lemma next_armed v p :
  armed p ->
  armed (next v p)
  /\ promises (next v p) !! prom p = Some (Fulfilled v)
  /\ reject (next v p) = reject p
  /\ (prom p < prom (next v p))%nat.
Proof.
  intros (Hi & Hr & Hp & Hlt). unfold armed, next, settle. simpl.
  rewrite Hr, Hp.
  repeat split; try done.
  - by rewrite lookup_insert_eq.
  - lia.
  - rewrite lookup_insert_ne by lia. by rewrite lookup_insert_eq.
Qed.

Lemma new_Producer_armed : armed (V := V) new_Producer.
Proof. repeat split; simpl; lia. Qed.

Lemma emits_armed (vs : list V) s :
  armed (prod s) ->
  armed (prod (run (Emit <$> vs) s))
  /\ gen (run (Emit <$> vs) s) = gen s
  /\ outcomes (run (Emit <$> vs) s) = outcomes s.
Proof.
  revert s. induction vs as [|v vs IH]; intros s Ha; [done|].
  destruct (IH (exec (Emit v) s)) as (H1 & H2 & H3);
    [simpl; by apply next_armed|].
  simpl in *. done.
Qed.

(** After a first call of [next], [reject] no longer belongs to the promise
    in [prom], and every further call of [next] keeps it so. *)
Lemma first_next_stale_reject v : stale_reject (next v new_Producer).
Proof.
  destruct (next_armed v new_Producer new_Producer_armed) as (Ha & Hf & _ & Hlt).
  repeat split; try apply Ha; try done.
  exists v. exact Hf.
Qed.

Lemma next_stale_reject v p : stale_reject p -> stale_reject (next v p).
Proof.
  intros (Ha & Hrej & Hpos & w & Hw).
  destruct (next_armed v p Ha) as (Ha' & Hf & Hrej' & Hlt).
  repeat split; try apply Ha'.
  - congruence.
  - lia.
  - exists w. destruct Ha as (_ & Hr & Hp & Hfresh).
    unfold next, settle. simpl. rewrite Hr, Hp.
    rewrite lookup_insert_ne by lia. by rewrite lookup_insert_ne by lia.
Qed.

(** With a stale [reject], [error(err)] changes no promise: the promise in
    [prom] stays pending. *)
Lemma error_stale_reject err p :
  stale_reject p ->
  promises (error err p) = promises p
  /\ promises (error err p) !! prom (error err p) = Some Pending.
Proof.
  intros (Ha & Hrej & Hpos & w & Hw).
  assert (promises (error err p) = promises p) as Heq.
  { unfold error, settle. simpl. by rewrite Hrej, Hw. }
  split; [exact Heq|]. rewrite Heq. apply Ha.
Qed.

Lemma emits_stale_reject (vs : list V) s :
  stale_reject (prod s) -> stale_reject (prod (run (Emit <$> vs) s)).
Proof.
  revert s. induction vs as [|v vs IH]; intros s Hs; [done|].
  apply (IH (exec (Emit v) s)). simpl. by apply next_stale_reject.
Qed.

(** Calls of [next] do not touch the generator object nor the flag
    [iterating]. *)
Lemma emits_frame (vs : list V) s :
  iterating (prod (run (Emit <$> vs) s)) = iterating (prod s)
  /\ gen (run (Emit <$> vs) s) = gen s
  /\ outcomes (run (Emit <$> vs) s) = outcomes s.
Proof.
  revert s. induction vs as [|v vs IH]; intros s; [done|].
  destruct (IH (exec (Emit v) s)) as (H1 & H2 & H3). simpl in *. done.
Qed.

(** Once the producer is not iterating and the generator object is not
    inside [yield prom], no event brings a value or an error to the
    consumer. *)
Lemma exec_finished (e : event V) s : finished s -> finished (exec e s).
Proof.
  intros (Hi & Hg & Ho).
  assert (Forall (fun o : outcome V => o = End) (outcomes s ++ [End])) as Ho'.
  { apply Forall_app. split; [done|]. by repeat constructor. }
  destruct e as [v| |err| |]; simpl.
  - by repeat split.
  - by repeat split.
  - by repeat split.
  - destruct Hg as [Hg|Hg]; rewrite Hg; unfold resume; rewrite ?Hi;
      repeat split; simpl; auto.
  - destruct Hg as [Hg|Hg]; rewrite Hg; repeat split; auto.
Qed.

Lemma run_finished (es : list (event V)) s : finished s -> finished (run es s).
Proof.
  revert s. induction es as [|e es IH]; intros s Hs; [done|].
  simpl. apply IH. by apply exec_finished.
Qed.

(** A value emitted while the generator awaits the promise in [prom] is
    what the consumer gets next. *)
Lemma emit_then_settle s a c :
  gen s = Awaiting a ->
  promises (next c (prod s)) !! a = Some (Fulfilled c) ->
  outcomes (run [Emit c; Settle] s) = outcomes s ++ [Value c].
Proof.
  intros Hg Hf. unfold run. cbn [fold_left].
  cbn [exec gen prod outcomes]. rewrite Hg.
  cbn [gen prod outcomes]. by rewrite Hf.
Qed.

(** For every number of calls of [next] before it, [error(err)] rejects
    nothing: the promise in [prom] is still pending afterwards. *)
Lemma error_after_emits_rejects_nothing (v : V) (vs : list V) (err : V) :
  let p := prod (run (Emit <$> (v :: vs)) (begin new_Producer)) in
  promises (error err p) = promises p
  /\ promises (error err p) !! prom (error err p) = Some Pending.
Proof.
  simpl. apply error_stale_reject.
  apply (emits_stale_reject vs (exec (Emit v) (begin new_Producer))).
  simpl. apply first_next_stale_reject.
Qed.

(** C4. A consumer iterates a new producer; [next(v)] is called, the
    consumer gets [v] and asks for the next value; then [error(err)] is
    called.  The promise that the generator awaits stays pending (the call
    rejected the first promise, which [next] had fulfilled), and however
    long the consumer waits it sees neither [err] nor the end: all it ever
    got is [v].  Without a call of [next] before it, [error(err)] does reach
    the consumer, as the test of [index.test.js] has it. *)
Theorem error_after_emit_is_never_surfaced (v err : V) (n : nat) :
  let s := run ([Pull; Emit v; Settle; Pull; Fail err] ++ repeat Settle n)
             (begin new_Producer) in
  outcomes s = [Value v]
  /\ gen s = Awaiting (prom (prod s))
  /\ promises (prod s) !! prom (prod s) = Some Pending
  /\ outcomes (run [Pull; Fail err; Settle] (begin new_Producer))
     = [Thrown err].
Proof.
  cbv zeta. rewrite run_app.
  rewrite (settle_pending _ 1%nat) by reflexivity.
  repeat split; reflexivity.
Qed.

(** C5, as the code has it.  Values emitted before the consumer's first
    call of [next()] are never observed, none of them, the last one
    included: the generator awaits the promise that [prom] holds when it is
    asked, which is the pending one installed by the last call of [next], so
    the consumer waits.  The first value emitted after that is what it
    gets. *)
Theorem emits_before_the_pull_are_dropped (vs : list V) (c : V) (n : nat) :
  let waiting :=
    run ((Emit <$> vs) ++ [Pull] ++ repeat Settle n) (begin new_Producer) in
  outcomes waiting = []
  /\ (exists a, gen waiting = Awaiting a
               /\ promises (prod waiting) !! a = Some Pending)
  /\ outcomes (run [Emit c; Settle] waiting) = [Value c].
Proof.
  cbv zeta. rewrite !run_app.
  destruct (emits_armed vs (begin new_Producer) new_Producer_armed)
    as (Ha & Hg & Ho).
  set (s := run (Emit <$> vs) (begin new_Producer)) in *.
  assert (run [Pull] s = mkSystem (prod s) (Awaiting (prom (prod s))) [])
    as HP.
  { simpl. rewrite Hg. simpl. unfold resume.
    destruct Ha as (-> & _). by rewrite Ho. }
  rewrite HP.
  rewrite (settle_pending _ (prom (prod s))); [|reflexivity|apply Ha].
  split; [reflexivity|]. split; [exists (prom (prod s)); split; [done|apply Ha]|].
  destruct (next_armed c (prod s) Ha) as (_ & Hf & _).
  by rewrite (emit_then_settle _ (prom (prod s)) c).
Qed.

End ProducerFacts.

(** C5, as stated, fails: after [next(1)], [next(2)] and then one request of
    the consumer, the consumer has not been given 2; it has been given
    nothing. *)
Lemma emit_emit_then_pull_yields_nothing :
  outcomes (run [Emit (VNum 1); Emit (VNum 2); Pull; Settle]
              (begin new_Producer)) = []
  /\ outcomes (run [Emit (VNum 1); Emit (VNum 2); Pull; Settle]
                 (begin new_Producer)) <> [Value (VNum 2)].
Proof. split; [reflexivity|discriminate]. Qed.

(** C6. [complete()] changes no promise: the pending one is neither
    resolved nor rejected.  Let anything happen after it ([before]: calls of
    [next] and of the other methods, an earlier consumer at work), and let a
    consumer then begin to iterate.  Whatever happens from then on ([es]:
    more calls of [next], the requests of the consumer, jobs of settled
    promises), every request of this consumer ends with the end of the
    iteration: no value and no error is ever observed.  And its first
    request ends the iteration at once, however many calls of [next] came
    before it. *)
Theorem completed_producer_yields_nothing {V} (p : producer V)
    (before es : list (event V)) (vs : list V) :
  let late := begin (prod (run before (begin (complete p)))) in
  promises (complete p) = promises p
  /\ Forall (fun o => o = End) (outcomes (run es late))
  /\ outcomes (run ((Emit <$> vs) ++ [Pull]) late) = [End]
  /\ gen (run ((Emit <$> vs) ++ [Pull]) late) = GenCompleted.
Proof.
  cbv zeta.
  assert (finished (begin (complete p))) as Hfin0.
  { repeat split; simpl; [by left|by constructor]. }
  pose proof (run_finished before _ Hfin0) as (Hdead & _ & _).
  set (q := prod (run before (begin (complete p)))) in *.
  assert (finished (begin q)) as Hfin.
  { repeat split; simpl; [done|by left|by constructor]. }
  split; [reflexivity|]. split; [apply (run_finished es _ Hfin)|].
  rewrite run_app.
  destruct (emits_frame vs (begin q)) as (Hi & Hg & Ho).
  simpl in Hi, Hg, Ho. simpl. rewrite Hg. unfold resume. rewrite Hi, Ho.
  by rewrite Hdead.
Qed.

End ProducerTheory.

(** ** The other operators *)

Module MoreOperatorsTheory.
Import IterTheory Operators OperatorsTheory MoreOperators.

Ltac loop_unfold :=
  repeat progress
    (simpl; unfold each_step, skip_step, flatMap_step, take_step, tap_step).

Ltac loop_step E := loop_unfold; rewrite ?E; simpl; reflexivity.

(** From a run of the upstream to the result of [toArray] on an operator
    over it. *)
Lemma toArray_via_Drains {A B} (iter : Generator A) (g : Generator B)
    fuel xs ys :
  toArray fuel iter = Some xs ->
  (forall u', Drains iter (start iter) xs u' ->
              exists f', Drains g (start g) ys f') ->
  exists fuel', forall k, toArray (fuel' + k) g = Some ys.
Proof.
  intros Hx HD. destruct (toArray_Some_run _ _ _ Hx) as [u' Hrun].
  apply toArray_run_Drains in Hrun. destruct (HD u' Hrun) as [f' Hg].
  destruct (Drains_toArray_run g _ _ Hg) as [fuel' Hf].
  exists fuel'. intros k. unfold toArray. by rewrite Hf.
Qed.

Section EachFacts.
Context {A B : Type}.
Variable iter : Generator A.
Variable body : A -> turn B * loop_pc.

#[local] Abbreviation looping :=
  (mkGenerator AsyncGenerator (each_frame iter) (mkEach AtHead (start iter))
     (each_step iter body)).

Lemma each_Drains u xs u' :
  Drains iter u xs u' ->
  exists f', Drains looping (mkEach AtHead u) (each_yields body xs) f'.
Proof.
  induction 1 as [u u1 xs u2 E _ [f' IH]|u v u1 xs u2 E _ [f' IH]|u u1 E].
  - exists f'. eapply Drains_tau; [loop_step E|]. exact IH.
  - simpl each_yields. destruct (body v) as [[|b|] pc] eqn:Eb.
    + destruct pc.
      * exists f'. eapply Drains_tau; [loop_unfold; rewrite E, Eb; reflexivity|].
        exact IH.
      * exists f'. eapply Drains_tau; [loop_unfold; rewrite E, Eb; reflexivity|].
        eapply Drains_tau; [loop_unfold; reflexivity|]. exact IH.
      * eexists. eapply Drains_tau; [loop_unfold; rewrite E, Eb; reflexivity|].
        apply Drains_return. loop_unfold. reflexivity.
    + destruct pc.
      * exists f'.
        eapply Drains_yield; [loop_unfold; rewrite E, Eb; reflexivity|].
        exact IH.
      * exists f'.
        eapply Drains_yield; [loop_unfold; rewrite E, Eb; reflexivity|].
        eapply Drains_tau; [loop_unfold; reflexivity|]. exact IH.
      * eexists.
        eapply Drains_yield; [loop_unfold; rewrite E, Eb; reflexivity|].
        apply Drains_return. loop_unfold. reflexivity.
    + eexists. apply Drains_return. loop_unfold. rewrite E, Eb. reflexivity.
  - eexists. apply Drains_return. loop_step E.
Qed.

End EachFacts.

Lemma each_yields_map {A B} (fn : A -> B) (xs : list A) :
  each_yields (fun v => (Yield (fn v), AtYield)) xs = List.map fn xs.
Proof. induction xs as [|x xs IH]; simpl; [done|by rewrite IH]. Qed.

Lemma each_yields_filter {A} (pred : A -> jsval) (xs : list A) :
  each_yields (fun v => if truthy (pred v) then (Yield v, AtYield)
                        else (Tau, AtHead)) xs
  = List.filter (fun v => truthy (pred v)) xs.
Proof.
  induction xs as [|x xs IH]; simpl; [done|].
  destruct (truthy (pred x)); by rewrite IH.
Qed.

Lemma each_yields_takeWhile {A} (pred : A -> jsval) (xs : list A) :
  each_yields (fun v => if negb (truthy (pred v)) then (Return, Completed)
                        else (Yield v, AtYield)) xs
  = prefix_while (fun v => truthy (pred v)) xs.
Proof.
  induction xs as [|x xs IH]; simpl; [done|].
  destruct (truthy (pred x)); simpl; by rewrite ?IH.
Qed.

(** What [prefix_while] computes: a prefix whose values all pass the test,
    followed by nothing or by a value that fails it. *)
Lemma prefix_while_spec {A} (p : A -> bool) (xs : list A) :
  exists rest,
    xs = prefix_while p xs ++ rest
    /\ Forall (fun v => p v = true) (prefix_while p xs)
    /\ match rest with [] => True | v :: _ => p v = false end.
Proof.
  induction xs as [|x xs (rest & Hx & Hall & Hrest)]; simpl.
  - exists []. by repeat split.
  - destruct (p x) eqn:Ep.
    + exists rest. simpl. split; [by rewrite <- Hx|]. split; [|done].
      by constructor.
    + exists (x :: xs). by repeat split.
Qed.

(** X1. Over an upstream that yields [xs] and ends, [map(fn)] yields
    [fn(v)] for every [v] of [xs], in the same order, and ends. *)
Theorem map_yields_images {A B} (fn : A -> B) (iter : Generator A)
    (fuel : nat) (xs : list A) :
  toArray fuel iter = Some xs ->
  exists fuel', forall k,
    toArray (fuel' + k) (map fn iter) = Some (List.map fn xs).
Proof.
  intros Hx. apply (toArray_via_Drains iter _ fuel xs _ Hx).
  intros u' HD. rewrite <- each_yields_map. exact (each_Drains _ _ _ _ _ HD).
Qed.

Lemma map_yields_images_witness :
  exists fuel', forall k,
    toArray (fuel' + k)
      (map (fun v => js_add v v) (fromArray [VNum 1; VNum 2; VNum 3]))
    = Some [VNum 2; VNum 4; VNum 6].
Proof.
  refine (map_yields_images (fun v => js_add v v)
            (fromArray [VNum 1; VNum 2; VNum 3]) 4
            [VNum 1; VNum 2; VNum 3] _).
  reflexivity.
Defined.

(** X2. Over an upstream that yields [xs] and ends, [filter(pred)] yields
    the values of [xs] for which [pred] gives a truthy value, each once and
    in the order of [xs], and ends. *)
Theorem filter_yields_truthy {A} (pred : A -> jsval) (iter : Generator A)
    (fuel : nat) (xs : list A) :
  toArray fuel iter = Some xs ->
  exists fuel', forall k,
    toArray (fuel' + k) (filter pred iter)
    = Some (List.filter (fun v => truthy (pred v)) xs).
Proof.
  intros Hx. apply (toArray_via_Drains iter _ fuel xs _ Hx).
  intros u' HD. rewrite <- each_yields_filter. exact (each_Drains _ _ _ _ _ HD).
Qed.

Lemma filter_yields_truthy_witness :
  exists fuel', forall k,
    toArray (fuel' + k)
      (filter is_zero (fromArray [VNum 0; VNum 1; VNum 0]))
    = Some [VNum 0; VNum 0].
Proof.
  refine (filter_yields_truthy is_zero
            (fromArray [VNum 0; VNum 1; VNum 0]) 4
            [VNum 0; VNum 1; VNum 0] _).
  reflexivity.
Defined.

(** X3. Over an upstream that yields [xs] and ends, [takeWhile(pred)]
    yields a prefix [ys] of [xs] and ends: every value of [ys] passes
    [pred], and [ys] is all of [xs] or is followed in [xs] by a value that
    fails [pred] (that value and all after it are dropped). *)
Theorem takeWhile_yields_longest_prefix {A} (pred : A -> jsval)
    (iter : Generator A) (fuel : nat) (xs : list A) :
  toArray fuel iter = Some xs ->
  exists ys rest,
    xs = ys ++ rest
    /\ Forall (fun v => truthy (pred v) = true) ys
    /\ match rest with [] => True | v :: _ => truthy (pred v) = false end
    /\ exists fuel', forall k,
         toArray (fuel' + k) (takeWhile pred iter) = Some ys.
Proof.
  intros Hx.
  destruct (prefix_while_spec (fun v => truthy (pred v)) xs)
    as (rest & Hsplit & Hall & Hrest).
  exists (prefix_while (fun v => truthy (pred v)) xs), rest.
  repeat split; try done.
  apply (toArray_via_Drains iter _ fuel xs _ Hx).
  intros u' HD. rewrite <- each_yields_takeWhile. exact (each_Drains _ _ _ _ _ HD).
Qed.

Lemma takeWhile_yields_longest_prefix_witness :
  exists ys rest,
    [VNum 0; VNum 0; VNum 1; VNum 0] = ys ++ rest
    /\ Forall (fun v => truthy (is_zero v) = true) ys
    /\ match rest with [] => True | v :: _ => truthy (is_zero v) = false end
    /\ exists fuel', forall k,
         toArray (fuel' + k)
           (takeWhile is_zero (fromArray [VNum 0; VNum 0; VNum 1; VNum 0]))
         = Some ys.
Proof.
  refine (takeWhile_yields_longest_prefix is_zero
            (fromArray [VNum 0; VNum 0; VNum 1; VNum 0]) 5
            [VNum 0; VNum 0; VNum 1; VNum 0] _).
  reflexivity.
Defined.

Section TakeUntilFacts.
Context {A : Type}.
Variable pred : A -> jsval.
Variable iter : Generator A.

Lemma takeUntil_step_takeWhile (f : each_frame iter) :
  step (takeUntil pred iter) f
  = step (takeWhile (fun v => js_not (pred v)) iter) f.
Proof.
  simpl. unfold each_step.
  destruct (each_pc f); [|reflexivity..].
  destruct (step iter (each_iter f)) as [[|v|] u]; [reflexivity| |reflexivity].
  simpl. by destruct (truthy (pred v)).
Qed.

Lemma takeUntil_loop_takeWhile fuel (f : each_frame iter) acc :
  toArray_loop (takeUntil pred iter) fuel f acc
  = toArray_loop (takeWhile (fun v => js_not (pred v)) iter) fuel f acc.
Proof.
  revert f acc. induction fuel as [|fuel IH]; intros f acc; [reflexivity|].
  cbn [toArray_loop]. rewrite takeUntil_step_takeWhile.
  destruct (step (takeWhile _ iter) f) as [[|v|] f']; auto.
Qed.

Lemma takeUntil_observe_takeWhile fuel (f : each_frame iter) :
  observe (takeUntil pred iter) fuel f
  = observe (takeWhile (fun v => js_not (pred v)) iter) fuel f.
Proof.
  revert f. induction fuel as [|fuel IH]; intros f; [reflexivity|].
  cbn [observe]. rewrite takeUntil_step_takeWhile.
  destruct (step (takeWhile _ iter) f) as [[|v|] f']; [auto|by rewrite IH|auto].
Qed.

End TakeUntilFacts.

(** X4. [takeUntil(pred)] and [takeWhile(v => !pred(v))] yield the same
    values and end at the same point, over every upstream: [toArray] gives
    the same on both whatever the fuel, and so does the observation of
    their first steps (which exists for an upstream without end too). *)
Theorem takeUntil_is_takeWhile_of_negation {A} (pred : A -> jsval)
    (iter : Generator A) (fuel : nat) :
  toArray fuel (takeUntil pred iter)
    = toArray fuel (takeWhile (fun v => js_not (pred v)) iter)
  /\ observe (takeUntil pred iter) fuel (start (takeUntil pred iter))
    = observe (takeWhile (fun v => js_not (pred v)) iter) fuel
        (start (takeWhile (fun v => js_not (pred v)) iter)).
Proof.
  split.
  - unfold toArray, toArray_run. simpl start.
    by rewrite takeUntil_loop_takeWhile.
  - simpl start. apply takeUntil_observe_takeWhile.
Qed.

Section SkipFacts.
Context {A : Type}.
Variable iter : Generator A.

Lemma skip_Drains (num : Z) u xs u' :
  Drains iter u xs u' ->
  forall r, 0 <= r ->
  exists f', Drains (skip num iter) (mkSkipping AtHead u r)
               (skipn (Z.to_nat r) xs) f'.
Proof.
  induction 1 as [u u1 xs u2 E _ IH|u v u1 xs u2 E _ IH|u u1 E]; intros r Hr.
  - destruct (IH r Hr) as [f' HD]. exists f'.
    eapply Drains_tau; [loop_step E|]. exact HD.
  - destruct (Z.eqb_spec r 0) as [->|Hne].
    + destruct (IH 0 Hr) as [f' HD]. exists f'. simpl in *.
      eapply Drains_yield; [loop_step E|].
      eapply Drains_tau; [loop_unfold; reflexivity|]. exact HD.
    + destruct (IH (r - 1)) as [f' HD]; [lia|]. exists f'.
      replace (Z.to_nat r) with (S (Z.to_nat (r - 1))) by lia. simpl skipn.
      assert ((r =? 0) = false) as E0 by lia.
      eapply Drains_tau; [loop_unfold; rewrite E; simpl; rewrite E0; reflexivity|].
      exact HD.
  - eexists. rewrite skipn_nil. apply Drains_return. loop_step E.
Qed.

(** A negative count never reaches zero: every value is skipped. *)
Lemma skip_negative_Drains (num : Z) u xs u' :
  Drains iter u xs u' ->
  forall r, r < 0 ->
  exists f', Drains (skip num iter) (mkSkipping AtHead u r) [] f'.
Proof.
  induction 1 as [u u1 xs u2 E _ IH|u v u1 xs u2 E _ IH|u u1 E]; intros r Hr.
  - destruct (IH r Hr) as [f' HD]. exists f'.
    eapply Drains_tau; [loop_step E|]. exact HD.
  - destruct (IH (r - 1)) as [f' HD]; [lia|]. exists f'.
    assert ((r =? 0) = false) as E0 by lia.
    eapply Drains_tau; [loop_unfold; rewrite E; simpl; rewrite E0; reflexivity|].
    exact HD.
  - eexists. apply Drains_return. loop_step E.
Qed.

End SkipFacts.

(** X5. For a count [n >= 0] and an upstream that yields [xs] and ends,
    [skip(n)] drops the first [n] values and yields the others in order
    (nothing when [xs] has no more than [n] values): [max(0, m - n)] values
    for an upstream of [m]. *)
Theorem skip_drops_the_first_n {A} (n : Z) (iter : Generator A)
    (fuel : nat) (xs : list A) :
  0 <= n ->
  toArray fuel iter = Some xs ->
  exists fuel', forall k,
    toArray (fuel' + k) (skip n iter) = Some (skipn (Z.to_nat n) xs)
    /\ length (skipn (Z.to_nat n) xs) = (length xs - Z.to_nat n)%nat.
Proof.
  intros Hn Hx.
  destruct (toArray_via_Drains iter (skip n iter) fuel xs
              (skipn (Z.to_nat n) xs) Hx) as [fuel' Hf].
  { intros u' HD. exact (skip_Drains iter n _ _ _ HD n Hn). }
  exists fuel'. intros k. split; [apply Hf|apply length_skipn].
Qed.

Lemma skip_drops_the_first_n_witness :
  exists fuel', forall k,
    toArray (fuel' + k) (skip 1 (fromArray [VNum 1; VNum 2; VNum 3]))
      = Some [VNum 2; VNum 3]
    /\ length [VNum 2; VNum 3] = 2%nat.
Proof.
  refine (skip_drops_the_first_n 1 (fromArray [VNum 1; VNum 2; VNum 3]) 4
            [VNum 1; VNum 2; VNum 3] _ _); [lia|reflexivity].
Defined.

(** X6. With a negative count, [skip] yields nothing at all: [remaning]
    is truthy and only moves away from zero, so every upstream value is
    skipped.  Over an upstream that ends, the result is the empty
    sequence. *)
Theorem skip_negative_yields_nothing {A} (n : Z) (iter : Generator A)
    (fuel : nat) (xs : list A) :
  n < 0 ->
  toArray fuel iter = Some xs ->
  exists fuel', forall k, toArray (fuel' + k) (skip n iter) = Some [].
Proof.
  intros Hn Hx. apply (toArray_via_Drains iter _ fuel xs _ Hx).
  intros u' HD. exact (skip_negative_Drains iter n _ _ _ HD n Hn).
Qed.

Lemma skip_negative_yields_nothing_witness :
  exists fuel', forall k,
    toArray (fuel' + k) (skip (-1) (fromArray [VNum 1; VNum 2; VNum 3]))
    = Some [].
Proof.
  refine (skip_negative_yields_nothing (-1)
            (fromArray [VNum 1; VNum 2; VNum 3]) 4
            [VNum 1; VNum 2; VNum 3] _ _); [lia|reflexivity].
Defined.

(** X7. For a count [n >= 0] and an upstream that yields [xs] and ends,
    [take(n)] yields the first [n] values of [xs] in order (all of them
    when there are fewer), [min(n, m)] values for an upstream of [m], and
    ends. *)
Theorem take_yields_the_first_n {A} (n : Z) (iter : Generator A)
    (fuel : nat) (xs : list A) :
  0 <= n ->
  toArray fuel iter = Some xs ->
  exists fuel', forall k,
    toArray (fuel' + k) (take n iter) = Some (firstn (Z.to_nat n) xs)
    /\ length (firstn (Z.to_nat n) xs) = Nat.min (Z.to_nat n) (length xs).
Proof.
  intros Hn Hx.
  destruct (toArray_via_Drains iter (take n iter) fuel xs
              (firstn (Z.to_nat n) xs) Hx) as [fuel' Hf].
  { intros u' HD. exact (take_Drains iter n _ _ _ HD n Hn). }
  exists fuel'. intros k. split; [apply Hf|apply length_firstn].
Qed.

Lemma take_yields_the_first_n_witness :
  exists fuel', forall k,
    toArray (fuel' + k) (take 2 (fromArray [VNum 1; VNum 2; VNum 3]))
      = Some [VNum 1; VNum 2]
    /\ length [VNum 1; VNum 2] = 2%nat.
Proof.
  refine (take_yields_the_first_n 2 (fromArray [VNum 1; VNum 2; VNum 3]) 4
            [VNum 1; VNum 2; VNum 3] _ _); [lia|reflexivity].
Defined.

(** X8. [take(n, skip(m, iter))], for counts [m, n >= 0] and an upstream
    that yields [xs] and ends, yields the [n] values of [xs] that follow
    the first [m]. *)
Theorem take_of_skip_yields_a_window {A} (m n : Z) (iter : Generator A)
    (fuel : nat) (xs : list A) :
  0 <= m -> 0 <= n ->
  toArray fuel iter = Some xs ->
  exists fuel', forall k,
    toArray (fuel' + k) (take n (skip m iter))
    = Some (firstn (Z.to_nat n) (skipn (Z.to_nat m) xs)).
Proof.
  intros Hm Hn Hx. apply (toArray_via_Drains iter _ fuel xs _ Hx).
  intros u' HD.
  destruct (skip_Drains iter m _ _ _ HD m Hm) as [f1 HD1].
  exact (take_Drains (skip m iter) n _ _ _ HD1 n Hn).
Qed.

Lemma take_of_skip_yields_a_window_witness :
  exists fuel', forall k,
    toArray (fuel' + k)
      (take 2 (skip 1 (fromArray [VNum 1; VNum 2; VNum 3; VNum 4])))
    = Some [VNum 2; VNum 3].
Proof.
  refine (take_of_skip_yields_a_window 1 2
            (fromArray [VNum 1; VNum 2; VNum 3; VNum 4]) 5
            [VNum 1; VNum 2; VNum 3; VNum 4] _ _ _); [lia|lia|reflexivity].
Defined.

(** A mock function called with [xs] has [xs] appended to its calls. *)
Lemma fold_spy {A} (xs calls : list A) :
  fold_left (fun w v => spy v w) xs calls = calls ++ xs.
Proof.
  revert calls. induction xs as [|x xs IH]; intros calls; simpl.
  - by rewrite app_nil_r.
  - rewrite IH. unfold spy. by rewrite <- app_assoc.
Qed.

Section TerminalFacts.
Context {A : Type}.
Variable iter : Generator A.

Lemma reduce_loop_Drains {St} (fn : St -> A -> St) u xs u' :
  Drains iter u xs u' ->
  exists fuel, forall k state,
    reduce_loop iter fn (fuel + k) u state = Some (fold_left fn xs state).
Proof.
  induction 1 as [u u1 xs u2 E _ [n IH]|u v u1 xs u2 E _ [n IH]|u u1 E].
  - exists (S n). intros k state. simpl. rewrite E. apply IH.
  - exists (S n). intros k state. simpl. rewrite E. apply IH.
  - exists 1%nat. intros k state. simpl. by rewrite E.
Qed.

Lemma forEach_loop_Drains {W} (fn : A -> W -> W) u xs u' :
  Drains iter u xs u' ->
  exists fuel, forall k w,
    forEach_loop iter fn (fuel + k) u w
    = Some (fold_left (fun w v => fn v w) xs w).
Proof.
  induction 1 as [u u1 xs u2 E _ [n IH]|u v u1 xs u2 E _ [n IH]|u u1 E].
  - exists (S n). intros k w. simpl. rewrite E. apply IH.
  - exists (S n). intros k w. simpl. rewrite E. apply IH.
  - exists 1%nat. intros k w. simpl. by rewrite E.
Qed.

Lemma tap_Drains {W} (fn : A -> W -> W) (w0 : W) u xs u' :
  Drains iter u xs u' ->
  forall w,
  exists f',
    Drains (tap fn iter w0) (mkTap AtHead u w) xs f'
    /\ tap_world f' = fold_left (fun w v => fn v w) xs w.
Proof.
  induction 1 as [u u1 xs u2 E _ IH|u v u1 xs u2 E _ IH|u u1 E]; intros w.
  - destruct (IH w) as (f' & HD & Hw). exists f'. split; [|exact Hw].
    eapply Drains_tau; [loop_step E|]. exact HD.
  - destruct (IH (fn v w)) as (f' & HD & Hw). exists f'. split; [|exact Hw].
    eapply Drains_yield; [loop_step E|].
    eapply Drains_tau; [loop_unfold; reflexivity|]. exact HD.
  - eexists. split; [apply Drains_return; loop_step E|reflexivity].
Qed.

End TerminalFacts.

(** X9. Over an upstream that yields [xs] and ends, [reduce(fn, start)]
    resolves to the left fold of [fn] over [xs] from [start]:
    [fn(...fn(fn(start, x1), x2)..., xn)]; to [start] itself when the
    upstream yields nothing. *)
Theorem reduce_folds_from_the_left {A St} (fn : St -> A -> St) (start_ : St)
    (iter : Generator A) (fuel : nat) (xs : list A) :
  toArray fuel iter = Some xs ->
  exists fuel', forall k,
    reduce fn start_ (fuel' + k) iter = Some (fold_left fn xs start_).
Proof.
  intros Hx. destruct (toArray_Some_run _ _ _ Hx) as [u' Hrun].
  apply toArray_run_Drains in Hrun.
  destruct (reduce_loop_Drains iter fn _ _ _ Hrun) as [fuel' Hf].
  exists fuel'. intros k. apply Hf.
Qed.

Lemma reduce_folds_from_the_left_witness :
  exists fuel', forall k,
    reduce js_add (VNum 0) (fuel' + k) (fromArray [VNum 1; VNum 2; VNum 3])
    = Some (VNum 6).
Proof.
  refine (reduce_folds_from_the_left js_add (VNum 0)
            (fromArray [VNum 1; VNum 2; VNum 3]) 4
            [VNum 1; VNum 2; VNum 3] _).
  reflexivity.
Defined.

(** X10. Over an upstream that yields [xs] and ends, [forEach(fn)] calls
    [fn] once with every value of [xs], in the order of [xs], and then
    resolves: a mock function has recorded exactly the calls [xs]. *)
Theorem forEach_calls_fn_on_every_value {A} (iter : Generator A)
    (fuel : nat) (xs calls : list A) :
  toArray fuel iter = Some xs ->
  exists fuel', forall k,
    forEach spy calls (fuel' + k) iter = Some (calls ++ xs).
Proof.
  intros Hx. destruct (toArray_Some_run _ _ _ Hx) as [u' Hrun].
  apply toArray_run_Drains in Hrun.
  destruct (forEach_loop_Drains iter spy _ _ _ Hrun) as [fuel' Hf].
  exists fuel'. intros k. unfold forEach. by rewrite Hf, fold_spy.
Qed.

Lemma forEach_calls_fn_on_every_value_witness :
  exists fuel', forall k,
    forEach spy [] (fuel' + k) (fromArray [VNum 1; VNum 2; VNum 3])
    = Some [VNum 1; VNum 2; VNum 3].
Proof.
  refine (forEach_calls_fn_on_every_value
            (fromArray [VNum 1; VNum 2; VNum 3]) 4
            [VNum 1; VNum 2; VNum 3] [] _).
  reflexivity.
Defined.

(** X11. Over an upstream that yields [xs] and ends, [tap(fn)] yields
    [xs] unchanged, and by the end [fn] has been called once with every
    value, in order: a mock function has recorded exactly the calls
    [xs]. *)
Theorem tap_passes_values_and_calls_fn {A} (iter : Generator A)
    (fuel : nat) (xs : list A) :
  toArray fuel iter = Some xs ->
  exists fuel', forall k,
    exists f,
      toArray_run (fuel' + k) (tap spy iter []) = Some (xs, f)
      /\ tap_world f = xs.
Proof.
  intros Hx. destruct (toArray_Some_run _ _ _ Hx) as [u' Hrun].
  apply toArray_run_Drains in Hrun.
  destruct (tap_Drains iter spy [] _ _ _ Hrun []) as (f' & HD & Hw).
  destruct (Drains_toArray_run (tap spy iter []) _ _ HD) as [fuel' Hf].
  exists fuel'. intros k. exists f'. split; [apply Hf|].
  by rewrite Hw, fold_spy.
Qed.

Lemma tap_passes_values_and_calls_fn_witness :
  exists fuel', forall k,
    exists f,
      toArray_run (fuel' + k)
        (tap spy (fromArray [VNum 1; VNum 2; VNum 3]) [])
      = Some ([VNum 1; VNum 2; VNum 3], f)
      /\ tap_world f = [VNum 1; VNum 2; VNum 3].
Proof.
  refine (tap_passes_values_and_calls_fn
            (fromArray [VNum 1; VNum 2; VNum 3]) 4
            [VNum 1; VNum 2; VNum 3] _).
  reflexivity.
Defined.

Section RangeFacts.
Context {A : Type}.
Variable mapper : Z -> A.




End RangeFacts.



Section EarlyStop.
Context {A : Type} `{Undefined A}.
Variable iter : Generator A.

Lemma take_Next_yielded (num : Z) u v u1 rem xs f' :
  Next iter u (yielded v) u1 ->
  rem <> 0 ->
  Drains (take num iter) (mkTake AtHead u1 (rem - 1)) xs f' ->
  Drains (take num iter) (mkTake AtHead u rem) (v :: xs) f'.
Proof.
  intros HN Hrem HD. remember (yielded v) as r eqn:Er.
  induction HN as [u u0 r u1 E _ IH|u w u1 E|u u1 E].
  - eapply Drains_tau; [loop_step E|]. by apply IH.
  - injection Er as ->.
    assert ((rem =? 0) = false) as E0 by lia.
    eapply Drains_yield; [loop_unfold; rewrite E; simpl; rewrite E0; reflexivity|].
    eapply Drains_tau; [loop_unfold; reflexivity|]. exact HD.
  - discriminate Er.
Qed.

Lemma take_Next_break (num : Z) u v u1 :
  Next iter u (yielded v) u1 ->
  Drains (take num iter) (mkTake AtHead u 0) [] (mkTake Completed u1 0).
Proof.
  intros HN. remember (yielded v) as r eqn:Er.
  induction HN as [u u0 r u1 E _ IH|u w u1 E|u u1 E].
  - eapply Drains_tau; [loop_step E|]. by apply IH.
  - apply Drains_return. loop_step E.
  - discriminate Er.
Qed.

Lemma take_Nexts (num : Z) (xs : list A) (x : A) :
  forall u u',
  Nexts iter u (yielded <$> (xs ++ [x])) u' ->
  Drains (take num iter) (mkTake AtHead u (Z.of_nat (length xs))) xs
    (mkTake Completed u' 0).
Proof.
  induction xs as [|y xs IH]; intros u u' HN; simpl in HN;
    inversion HN as [|? r u1 rs ? HN1 HN2]; subst.
  - inversion HN2; subst. by eapply take_Next_break.
  - eapply take_Next_yielded; [exact HN1|simpl length; lia|].
    replace (Z.of_nat (length (y :: xs)) - 1) with (Z.of_nat (length xs))
      by (simpl length; lia).
    by apply IH.
Qed.

Variable body : A -> turn A * loop_pc.

#[local] Abbreviation looping :=
  (mkGenerator AsyncGenerator (each_frame iter) (mkEach AtHead (start iter))
     (each_step iter body)).

Lemma each_Next_yielded u v u1 b xs f' :
  Next iter u (yielded v) u1 ->
  body v = (Yield b, AtYield) ->
  Drains looping (mkEach AtHead u1) xs f' ->
  Drains looping (mkEach AtHead u) (b :: xs) f'.
Proof.
  intros HN Hb HD. remember (yielded v) as r eqn:Er.
  induction HN as [u u0 r u1 E _ IH|u w u1 E|u u1 E].
  - eapply Drains_tau; [loop_step E|]. by apply IH.
  - injection Er as ->.
    eapply Drains_yield; [loop_unfold; rewrite E, Hb; reflexivity|].
    eapply Drains_tau; [loop_unfold; reflexivity|]. exact HD.
  - discriminate Er.
Qed.

Lemma each_Next_break u v u1 :
  Next iter u (yielded v) u1 ->
  body v = (Return, Completed) ->
  Drains looping (mkEach AtHead u) [] (mkEach Completed u1).
Proof.
  intros HN Hb. remember (yielded v) as r eqn:Er.
  induction HN as [u u0 r u1 E _ IH|u w u1 E|u u1 E].
  - eapply Drains_tau; [loop_step E|]. by apply IH.
  - injection Er as ->. apply Drains_return.
    loop_unfold. by rewrite E, Hb.
  - discriminate Er.
Qed.

End EarlyStop.

(** X14. [take(n)] ends over an upstream that does not: when the first
    [n + 1] calls of [next()] on the upstream yield values, [take(n)] yields
    the first [n] of them and ends, leaving the upstream where it stands
    after these calls.  What the upstream would do next is never asked
    for. *)
Theorem take_ends_over_any_upstream {A} `{Undefined A} (iter : Generator A)
    (xs : list A) (x : A) (u' : frame iter) :
  Nexts iter (start iter) (yielded <$> (xs ++ [x])) u' ->
  exists fuel, forall k,
    toArray_run (fuel + k) (take (Z.of_nat (length xs)) iter)
    = Some (xs, mkTake Completed u' 0).
Proof.
  intros HN.
  pose proof (take_Nexts iter (Z.of_nat (length xs)) xs x _ _ HN) as HD.
  exact (Drains_toArray_run (take (Z.of_nat (length xs)) iter) _ _ HD).
Qed.

Lemma take_ends_over_any_upstream_witness :
  exists fuel, forall k,
    toArray_run (fuel + k) (take 2 (range 1 Infinity VNum))
    = Some ([VNum 1; VNum 2],
            @mkTake _ (range 1 Infinity VNum) Completed 4 0).
Proof.
  refine (take_ends_over_any_upstream (range 1 Infinity VNum)
            [VNum 1; VNum 2] (VNum 3) 4 _).
  apply Nexts_cons with (f' := 2); [apply Next_yield; reflexivity|].
  apply Nexts_cons with (f' := 3); [apply Next_yield; reflexivity|].
  apply Nexts_cons with (f' := 4); [apply Next_yield; reflexivity|].
  apply Nexts_nil.
Defined.

(** X15. [takeWhile(pred)] ends at the first value that fails [pred],
    whether or not the upstream ends: when the upstream first yields [ys],
    which all pass [pred], and then [v], which does not, [takeWhile(pred)]
    yields [ys] and ends; [v] is dropped and the upstream is not asked
    again. *)
Theorem takeWhile_ends_at_first_failure {A} `{Undefined A}
    (pred : A -> jsval) (iter : Generator A)
    (ys : list A) (v : A) (u' : frame iter) :
  Nexts iter (start iter) (yielded <$> (ys ++ [v])) u' ->
  Forall (fun y => truthy (pred y) = true) ys ->
  truthy (pred v) = false ->
  exists fuel, forall k,
    toArray_run (fuel + k) (takeWhile pred iter)
    = Some (ys, mkEach Completed u').
Proof.
  intros HN Hys Hv.
  apply (Drains_toArray_run (takeWhile pred iter)).
  simpl start. revert HN Hys. generalize (start iter) as u.
  induction ys as [|y ys IH]; intros u HN Hys; simpl in HN;
    inversion HN as [|? r u1 rs ? HN1 HN2]; subst.
  - inversion HN2; subst.
    eapply (each_Next_break iter); [exact HN1|]. simpl. by rewrite Hv.
  - inversion Hys as [|? ? Hy Hys']; subst.
    eapply (each_Next_yielded iter); [exact HN1| |by apply IH].
    simpl. by rewrite Hy.
Qed.

Lemma takeWhile_ends_at_first_failure_witness :
  exists fuel, forall k,
    toArray_run (fuel + k) (takeWhile is_zero (range 0 Infinity VNum))
    = Some ([VNum 0], @mkEach _ (range 0 Infinity VNum) Completed 2).
Proof.
  refine (takeWhile_ends_at_first_failure is_zero (range 0 Infinity VNum)
            [VNum 0] (VNum 1) 2 _ _ _).
  - apply Nexts_cons with (f' := 1); [apply Next_yield; reflexivity|].
    apply Nexts_cons with (f' := 2); [apply Next_yield; reflexivity|].
    apply Nexts_nil.
  - repeat constructor.
  - reflexivity.
Defined.

Section FlatMapFacts.
Context {A B : Type}.
Variable fn : A -> Generator B.
Variable iter : Generator A.



End FlatMapFacts.



(** X17. [compose] applies its functions from right to left: over an
    upstream that yields [xs] and ends, [compose(map(fn), filter(pred))]
    first filters and then maps, and yields [fn(v)] for the values [v] of
    [xs] that pass [pred], in order. *)
Theorem compose_map_filter_yields {A} (fn : A -> A) (pred : A -> jsval)
    (iter : Generator A) (fuel : nat) (xs : list A) :
  toArray fuel iter = Some xs ->
  exists fuel', forall k,
    toArray (fuel' + k) (compose [map fn; filter pred] iter)
    = Some (List.map fn (List.filter (fun v => truthy (pred v)) xs)).
Proof.
  intros Hx. apply (toArray_via_Drains iter _ fuel xs _ Hx).
  intros u' HD. unfold compose. simpl fold_right.
  destruct (each_Drains iter
              (fun v => if truthy (pred v) then (Yield v, AtYield)
                        else (Tau, AtHead)) _ _ _ HD) as [f1 HD1].
  rewrite each_yields_filter in HD1.
  rewrite <- each_yields_map.
  exact (each_Drains (filter pred iter)
           (fun v => (Yield (fn v), AtYield)) _ _ _ HD1).
Qed.

Lemma compose_map_filter_yields_witness :
  exists fuel', forall k,
    toArray (fuel' + k)
      (compose [map (fun v => js_add v v); filter is_not_zero]
         (fromArray [VNum 1; VNum 0; VNum 3]))
    = Some [VNum 2; VNum 6].
Proof.
  refine (compose_map_filter_yields (fun v => js_add v v) is_not_zero
            (fromArray [VNum 1; VNum 0; VNum 3]) 4
            [VNum 1; VNum 0; VNum 3] _).
  reflexivity.
Defined.

(** X18. A curried function may be given its arguments in any number of
    calls: as long as fewer than [fn.length] arguments have come, each call
    gives a function again; the call with which the count reaches
    [fn.length] calls [fn], once, with all the arguments of all the calls in
    the order they were given. *)
Theorem curry_collects_arguments {X R} (fn : jsfunction X R)
    (args : list X) (calls : list (list X)) (last : list X) :
  (length (args ++ concat calls) < length_ fn)%nat ->
  (length_ fn <= length (args ++ concat calls ++ last))%nat ->
  call_chain fn (curry fn args) (calls ++ [last])
  = Some (Applied (call fn (args ++ concat calls ++ last))).
Proof.
  assert (Hshort : forall a : list X,
            (length a < length_ fn)%nat -> curry fn a = Partial a).
  { intros a Ha. unfold curry.
    destruct (Nat.leb_spec (length_ fn) (length a)); [lia|done]. }
  assert (Hfull : forall a : list X,
            (length_ fn <= length a)%nat -> curry fn a = Applied (call fn a)).
  { intros a Ha. unfold curry.
    destruct (Nat.leb_spec (length_ fn) (length a)); [done|lia]. }
  revert args. induction calls as [|c calls IH]; intros args Hlt Hge.
  - simpl in *. rewrite app_nil_r in Hlt.
    rewrite (Hshort args Hlt). simpl. by rewrite (Hfull _ Hge).
  - simpl in Hlt, Hge. rewrite length_app in Hlt.
    rewrite (Hshort args) by lia.
    cbn [app call_chain call_again]. rewrite (IH (args ++ c)).
    + do 3 f_equal. simpl concat. repeat rewrite <- app_assoc. reflexivity.
    + rewrite !length_app in *. lia.
    + rewrite !length_app in *. lia.
Qed.

Lemma curry_collects_arguments_witness :
  call_chain (mkFunction 3 (fun args : list Z => fold_left Z.add args 0))
    (curry (mkFunction 3 (fun args : list Z => fold_left Z.add args 0)) [1])
    ([[]; [2]] ++ [[3]])
  = Some (Applied 6).
Proof.
  refine (curry_collects_arguments
            (mkFunction 3 (fun args : list Z => fold_left Z.add args 0))
            [1] [[]; [2]] [3] _ _); simpl; lia.
Defined.

(** X19. Over a first sequence made by an [async function*] (the result
    of [take], [map] or any other operator), [merge] never ends:
    [nodeA.done] is read off a promise, so the loop has no exit, and
    [toArray] of the merged sequence does not resolve at any fuel. *)
Theorem merge_over_operator_output_never_ends {A B C}
    `{Undefined A} `{Undefined B}
    (fn : A -> B -> C) (iterA : Generator A) (iterB : Generator B)
    (fuel : nat) :
  kind iterA = AsyncGenerator ->
  toArray fuel (merge fn iterA iterB) = None.
Proof.
  intros HkA. unfold toArray, toArray_run.
  rewrite (merge_async_never_completes fn iterA iterB HkA); [reflexivity|].
  exact I.
Qed.

Lemma merge_over_operator_output_never_ends_witness :
  toArray 1000
    (merge js_add (take 2 (range 1 Infinity VNum)) (range 1 Infinity VNum))
  = None.
Proof.
  refine (merge_over_operator_output_never_ends js_add
            (take 2 (range 1 Infinity VNum)) (range 1 Infinity VNum) 1000 _).
  reflexivity.
Defined.

End MoreOperatorsTheory.

(** ** More on the Producer *)

Module ProducerMoreTheory.
Import Producer ProducerTheory ProducerObservations.

Section MoreFacts.
Context {V : Type}.
Implicit Types (p : producer V) (s : system V) (v err : V).

(** [next] changes no promise but the one in [prom] and the new one. *)
Lemma next_other v p a :
  armed p -> (a < prom p)%nat ->
  promises (next v p) !! a = promises p !! a.
Proof.
  intros (_ & Hr & Hp & Hlt) Ha. unfold next, settle. simpl.
  rewrite Hr, Hp. rewrite lookup_insert_ne by lia.
  by rewrite lookup_insert_ne by lia.
Qed.

Lemma emits_other (vs : list V) s a :
  armed (prod s) -> (a < prom (prod s))%nat ->
  promises (prod (run (Emit <$> vs) s)) !! a = promises (prod s) !! a.
Proof.
  revert s. induction vs as [|v vs IH]; intros s Ha Hlt; [done|].
  destruct (next_armed v (prod s) Ha) as (Ha' & _ & _ & Hlt').
  transitivity (promises (prod (exec (Emit v) s)) !! a).
  - apply (IH (exec (Emit v) s)); [exact Ha'|]. cbn [exec prod]. lia.
  - cbn [exec prod]. by apply next_other.
Qed.

(** Once the generator object is completed, every request ends at once
    and nothing else reaches the consumer. *)
Lemma run_completed (es : list (event V)) s :
  gen s = GenCompleted ->
  gen (run es s) = GenCompleted
  /\ outcomes (run es s) = outcomes s ++ repeat End (pulls es).
Proof.
  revert s. induction es as [|e es IH]; intros s Hg.
  - split; [done|]. simpl. by rewrite app_nil_r.
  - assert (gen (exec e s) = GenCompleted
            /\ outcomes (exec e s)
               = outcomes s ++ match e with Pull => [End] | _ => [] end)
      as [Hg' Ho'].
    { destruct e; simpl; rewrite ?Hg; simpl; rewrite ?app_nil_r; done. }
    destruct (IH (exec e s) Hg') as [IHg IHo].
    split; [exact IHg|]. simpl run in *. rewrite IHo, Ho'.
    rewrite <- app_assoc. f_equal. unfold pulls. by destruct e.
Qed.

Lemma delivered_app (os1 os2 : list (outcome V)) :
  delivered (os1 ++ os2) = (delivered os1 + delivered os2)%nat.
Proof. unfold delivered. by rewrite List.filter_app, length_app. Qed.

(** With the producer stopped, an event adds a value or an error only by
    using up the promise in flight. *)
Lemma exec_stopped (e : event V) s :
  iterating (prod s) = false ->
  iterating (prod (exec e s)) = false
  /\ (delivered (outcomes (exec e s)) + in_flight (exec e s)
      <= delivered (outcomes s) + in_flight s)%nat.
Proof.
  intros Hi. unfold in_flight.
  destruct e as [v| |err| |]; simpl.
  1-3: split; [done|lia].
  - destruct (gen s) eqn:Hg; unfold resume; rewrite ?Hi; simpl;
      rewrite ?Hg, ?delivered_app; unfold delivered; simpl;
      split; try done; lia.
  - destruct (gen s) as [|a| |] eqn:Hg; simpl; rewrite ?Hg;
      try (split; [done|lia]).
    destruct (promises (prod s) !! a) as [[|w|w]|]; simpl;
      rewrite ?Hg, ?delivered_app; unfold delivered; simpl;
      split; try done; lia.
Qed.

Lemma run_stopped (es : list (event V)) s :
  iterating (prod s) = false ->
  (delivered (outcomes (run es s)) + in_flight (run es s)
   <= delivered (outcomes s) + in_flight s)%nat.
Proof.
  revert s. induction es as [|e es IH]; intros s Hi; [done|].
  destruct (exec_stopped e s Hi) as [Hi' Hle].
  simpl run. specialize (IH (exec e s) Hi'). simpl in IH. lia.
Qed.

(** The three methods keep [single_slot]. *)
Lemma exec_single_slot (e : event V) s :
  single_slot (prod s) -> single_slot (prod (exec e s)).
Proof.
  intros [Hr Hone]. destruct e as [v| |err| |]; simpl.
  - split; [done|]. intros a. simpl. unfold settle. rewrite Hr.
    destruct (decide (a = fresh (prod s))) as [->|Hne]; [done|].
    rewrite lookup_insert_ne by done.
    destruct (promises (prod s) !! prom (prod s)) as [[|w|w]|] eqn:Hp;
      try (intros Ha; specialize (Hone a Ha); congruence).
    destruct (decide (a = prom (prod s))) as [->|Hne'].
    + by rewrite lookup_insert_eq.
    + rewrite lookup_insert_ne by done. intros Ha. by specialize (Hone a Ha).
  - done.
  - split; [done|]. intros a. simpl. unfold settle.
    destruct (promises (prod s) !! reject (prod s)) as [[|w|w]|] eqn:Hp;
      try apply Hone.
    destruct (decide (a = reject (prod s))) as [->|Hne].
    + by rewrite lookup_insert_eq.
    + rewrite lookup_insert_ne by done. apply Hone.
  - unfold resume. destruct (gen s); simpl; try done;
      destruct (iterating (prod s)); done.
  - destruct (gen s) as [|a| |]; try done.
    by destruct (promises (prod s) !! a) as [[|w|w]|].
Qed.

(** X20. Of the values emitted while a request of the consumer is
    pending, the consumer gets the first: [next(a)] fulfils the promise it
    awaits.  The values of the calls of [next] that follow before its next
    request ([vs]) are never delivered: that request awaits a new promise,
    which stays pending. *)
Theorem first_emit_of_a_burst_is_delivered (a : V) (vs : list V) (n : nat) :
  let s := run ([Pull; Emit a] ++ (Emit <$> vs) ++ [Settle; Pull]
                ++ repeat Settle n) (begin new_Producer) in
  outcomes s = [Value a]
  /\ gen s = Awaiting (prom (prod s))
  /\ promises (prod s) !! prom (prod s) = Some Pending.
Proof.
  cbv zeta. rewrite !run_app.
  set (s1 := run [Pull; Emit a] (begin new_Producer)).
  assert (armed (prod s1)) as Ha1.
  { apply (next_armed a new_Producer new_Producer_armed). }
  assert (promises (prod s1) !! 0%nat = Some (Fulfilled a)) as H0.
  { apply (next_armed a new_Producer new_Producer_armed). }
  destruct (emits_armed vs s1 Ha1) as (Ha2 & Hg2 & Ho2).
  pose proof (emits_other vs s1 0%nat Ha1) as Hkeep.
  set (s2 := run (Emit <$> vs) s1) in *.
  assert (promises (prod s2) !! 0%nat = Some (Fulfilled a)) as H0'.
  { rewrite Hkeep; [exact H0|]. simpl. lia. }
  assert (gen s2 = Awaiting 0) as Hg2' by (rewrite Hg2; reflexivity).
  assert (outcomes s2 = []) as Ho2' by (rewrite Ho2; reflexivity).
  assert (exec Settle s2 = mkSystem (prod s2) SuspendedYield [Value a]) as HS.
  { unfold exec. by rewrite Hg2', H0', Ho2'. }
  assert (run [Settle; Pull] s2
          = mkSystem (prod s2) (Awaiting (prom (prod s2))) [Value a]) as HSP.
  { change (run [Settle; Pull] s2) with (exec Pull (exec Settle s2)).
    rewrite HS. unfold exec, resume. cbn [gen prod outcomes].
    destruct Ha2 as (Hi & _). by rewrite Hi. }
  rewrite HSP.
  rewrite (settle_pending _ (prom (prod s2))); [|reflexivity|apply Ha2].
  repeat split; try done. apply Ha2.
Qed.

(** X21. On a new producer, [error(err)] while a consumer waits is
    surfaced to that consumer exactly once; every request it makes
    afterwards ends at once, and nothing that happens later ([es]) brings
    it a value or a second error. *)
Theorem error_on_new_producer_surfaces_once (err : V)
    (es : list (event V)) :
  outcomes (run ([Pull; Fail err; Settle] ++ es) (begin new_Producer))
  = Thrown err :: repeat End (pulls es).
Proof.
  rewrite run_app.
  destruct (run_completed es
              (run [Pull; Fail err; Settle] (begin new_Producer)) eq_refl)
    as [_ Ho].
  by rewrite Ho.
Qed.

(** X22. A producer never has more than one pending promise: whatever has
    been called on it and whatever its consumer has done ([es]), a promise
    of its store that is pending is the one in [prom]. *)
Theorem producer_has_one_pending_promise (es : list (event V)) (a : nat) :
  let p := prod (run es (begin new_Producer)) in
  promises p !! a = Some Pending -> a = prom p.
Proof.
  cbv zeta.
  assert (forall s, single_slot (prod s) -> single_slot (prod (run es s)))
    as Hrun.
  { induction es as [|e es IH]; intros s Hs; [done|].
    simpl. apply IH. by apply exec_single_slot. }
  assert (single_slot (V := V) (prod (begin new_Producer))) as H0.
  { split; [done|]. intros b. simpl.
    destruct (decide (b = 0%nat)) as [->|Hne]; [done|].
    by rewrite lookup_singleton_ne. }
  apply (Hrun _ H0).
Qed.

(** X23. After [complete()], and after [error(err)] as well, a consumer is
    given at most one more value or error: that of the promise it was
    awaiting, if it was awaiting one.  Whatever the producer and the
    consumer were at ([s]) and whatever happens afterwards ([es]), the
    values and errors it has got are at most those it had, plus one if a
    request of it was pending. *)
Theorem stopping_lets_one_value_through (s : system V)
    (es : list (event V)) (err : V) :
  (delivered (outcomes (run es (exec Complete s)))
   <= delivered (outcomes s) + in_flight s)%nat
  /\ (delivered (outcomes (run es (exec (Fail err) s)))
      <= delivered (outcomes s) + in_flight s)%nat.
Proof.
  split.
  - pose proof (run_stopped es (exec Complete s) eq_refl) as Hle.
    unfold in_flight in *. simpl in *. lia.
  - pose proof (run_stopped es (exec (Fail err) s) eq_refl) as Hle.
    unfold in_flight in *. simpl in *. lia.
Qed.

End MoreFacts.

Lemma producer_has_one_pending_promise_witness :
  1%nat = prom (prod (run [Emit (VNum 7); Pull] (begin new_Producer))).
Proof.
  refine (producer_has_one_pending_promise [Emit (VNum 7); Pull] 1 _).
  reflexivity.
Defined.

End ProducerMoreTheory.

(** ** [fromEvent] *)

Module FromEventTheory.
Import Producer ProducerTheory FromEvent.

Section FromEventFacts.
Context {V : Type}.

Lemma run_events_app (es1 es2 : list (listener_event V)) s :
  run_events (es1 ++ es2) s = run_events es2 (run_events es1 s).
Proof. apply fold_left_app. Qed.

(** Before the first request nobody listens. *)
Lemma emits_before_listening (vs : list V) :
  run_events (TargetEmit <$> vs) None = None.
Proof. induction vs as [|v vs IH]; [done|exact IH]. Qed.

Lemma jobs_pending (s : system V) a n :
  gen s = Awaiting a ->
  promises (prod s) !! a = Some Pending ->
  run_events (repeat Job n) (Some s) = Some s.
Proof.
  intros Hg Hp. induction n as [|n IH]; [reflexivity|].
  simpl. rewrite Hg, Hp. exact IH.
Qed.

Lemma on_event_listening (e : listener_event V) (s : system V) :
  listening s ->
  exists s', on_event e (Some s) = Some s' /\ listening s'.
Proof.
  intros (Hi & Hg & Hrej & Ho).
  destruct e as [payload| |]; simpl; eexists; (split; [reflexivity|]).
  - repeat split; try done. intros a err. simpl. unfold settle.
    destruct (decide (a = fresh (prod s))) as [->|Hne];
      [by rewrite lookup_insert_eq|].
    rewrite lookup_insert_ne by done.
    destruct (promises (prod s) !! resolve (prod s)) as [[|w|w]|] eqn:Hp;
      try apply Hrej.
    destruct (decide (a = resolve (prod s))) as [->|Hne'];
      [by rewrite lookup_insert_eq|].
    rewrite lookup_insert_ne by done. apply Hrej.
  - destruct (gen s) as [|a| |] eqn:Hgs.
    + unfold resume. rewrite Hi. by repeat split.
    + repeat split; try done. by rewrite Hgs.
    + unfold resume. rewrite Hi. by repeat split.
    + done.
  - destruct (gen s) as [|a| |] eqn:Hgs; try (by repeat split; rewrite ?Hgs).
    destruct (promises (prod s) !! a) as [[|w|w]|] eqn:Hp;
      try (by repeat split; rewrite ?Hgs).
    + repeat split; try done. simpl. apply Forall_app. split; [done|].
      repeat constructor. by exists w.
    + by destruct (Hrej a w).
Qed.

Lemma run_events_listening (es : list (listener_event V)) (s : system V) :
  listening s ->
  exists s', run_events es (Some s) = Some s' /\ listening s'.
Proof.
  revert s. induction es as [|e es IH]; intros s Hs; [by exists s|].
  destruct (on_event_listening e s Hs) as (s1 & E1 & Hs1).
  destruct (IH s1 Hs1) as (s' & E' & Hs').
  exists s'. split; [|exact Hs']. simpl. simpl in E1. by rewrite E1.
Qed.

Lemma first_request_listening :
  listening (V := V) (exec Pull (begin new_Producer)).
Proof.
  repeat split; simpl; try done.
  intros a err. destruct (decide (a = 0%nat)) as [->|Hne]; [done|].
  by rewrite lookup_singleton_ne.
Qed.

(** X24. A sequence made by [fromEvent] never ends and never fails:
    whatever the target emits and whatever the consumer does ([es]), every
    request of the consumer that has been answered was answered with a
    value.  No one holds the producer, so no one can complete it. *)
Theorem fromEvent_only_yields_values (es : list (listener_event V)) :
  Forall (fun o => exists v, o = Value v) (received (run_events es None)).
Proof.
  assert (forall s : option (system V),
            (s = None \/ exists s', s = Some s' /\ listening s') ->
            Forall (fun o => exists v, o = Value v)
              (received (run_events es s))) as Hall.
  { induction es as [|e es IH]; intros s Hs.
    - destruct Hs as [->|(s' & -> & Hs')]; [by constructor|apply Hs'].
    - simpl. apply IH. destruct Hs as [->|(s' & -> & Hs')].
      + destruct e; simpl; [by left|right|by left].
        eexists. split; [reflexivity|]. apply first_request_listening.
      + right. exact (on_event_listening e s' Hs'). }
  apply Hall. by left.
Qed.

(** X25. Events that the target emits before the consumer's first request
    are lost: the listener is registered by that request.  The request then
    waits, and the first event emitted after it is what the consumer
    gets. *)
Theorem fromEvent_listens_from_first_request (vs : list V) (c : V)
    (n : nat) :
  let waiting :=
    run_events ((TargetEmit <$> vs) ++ [Next] ++ repeat Job n) None in
  received waiting = []
  /\ received (run_events [TargetEmit c; Job] waiting) = [Value c].
Proof.
  cbv zeta. rewrite !run_events_app, emits_before_listening.
  change (run_events [Next] None)
    with (Some (exec (V := V) Pull (begin new_Producer))).
  rewrite (jobs_pending _ 0%nat) by reflexivity.
  split; reflexivity.
Qed.

End FromEventFacts.

End FromEventTheory.
